(** * Miner icon generator: [scripts/generate-miner-icons.py]

    A shallow embedding of the script and the properties its specification
    states about it.  The script scrapes [tier]/[name]/[rarity] triples out
    of a text file with one regular expression, sorts them by tier, paints
    a 16x16 pixel icon for each, magnifies it to 128x128 and writes the
    icons and a manifest.

    Conventions of the embedding:
    - a Python [str] is a [text], the list of its code points;
    - a Python [int] is a [Z]; loop indices and pixel coordinates, which
      the script only ever takes from [range], are [nat];
    - the Unicode tables of the interpreter ([\s], [\d], the value of a
      decimal digit) are a type class, [Unicode];
    - the file system, standard output and the failures of the operating
      system are the state of a small state-and-exception monad, [IO]. *)

From Stdlib Require Import ZArith NArith List String Ascii Lia.
From Stdlib Require Import Sorting.Sorted Sorting.Permutation.
From stdpp Require Import gmap strings list pretty.

Set Default Proof Using "Type".
Local Open Scope Z_scope.

(* ===================================================================== *)
(** * Text *)
(* ===================================================================== *)

(** A code point. *)
Definition char := N.

(** A Python [str]. *)
Definition text := list char.

(** The text of a literal of the script (all of them are ASCII). *)
Definition txt (s : string) : text :=
  map N_of_ascii (list_ascii_of_string s).

(** What the regular-expression engine and [int] ask the interpreter's
    Unicode database: is the code point white space ([str.isspace]), and
    which decimal digit is it, if any ([unicodedata.decimal]). *)
Class Unicode := {
  isspace : char -> bool;
  decimal : char -> option Z
}.

(** The database restricted to the Basic Latin block: the white space of
    ASCII (tab to carriage return, the four separators, the space) and the
    digits [0] to [9]. *)
Definition basic_latin : Unicode := {|
  isspace c := ((9 <=? c) && (c <=? 13) || (28 <=? c) && (c <=? 32))%N;
  decimal c := if ((48 <=? c) && (c <=? 57))%N then Some (Z.of_N c - 48) else None
|}.

(** [int(s)] on a string of decimal digits. *)
Definition int `{Unicode} (s : text) : Z :=
  fold_left (fun acc c => 10 * acc + default 0 (decimal c)) s 0.

(** [str(n)] for an integer. *)
Definition str (n : Z) : text := txt (pretty n).

(* ===================================================================== *)
(** * Regular expressions *)
(* ===================================================================== *)

Module Re.

(** The members of a bracketed set, and the sets themselves. *)
Inductive item :=
| Literal (c : char)
| Space            (* \s *)
| NotSpace         (* \S *)
| Digit.           (* \d *)

Inductive charset :=
| In (items : list item)        (* [...]  *)
| NotIn (items : list item).    (* [^...] *)

(** The fragment of the pattern language that the script's pattern uses:
    literals, sets, concatenation, capturing groups, and greedy and lazy
    repetition of a set at least [lo] times. *)
Inductive regex :=
| Empty
| Chr (c : char)
| Set_ (cs : charset)
| Cat (r1 r2 : regex)
| Group (n : nat) (r : regex)
| MaxRepeat (lo : nat) (cs : charset)
| MinRepeat (lo : nat) (cs : charset).

Definition cat (rs : list regex) : regex := foldr Cat Empty rs.
Definition lit (s : string) : regex := cat (Chr <$> txt s).

Section Engine.
Context `{Unicode}.

Definition item_mem (c : char) (i : item) : bool :=
  match i with
  | Literal x => (c =? x)%N
  | Space => isspace c
  | NotSpace => negb (isspace c)
  | Digit => bool_decide (is_Some (decimal c))
  end.

Definition mem (cs : charset) (c : char) : bool :=
  match cs with
  | In items => existsb (item_mem c) items
  | NotIn items => negb (existsb (item_mem c) items)
  end.

(** The captured groups of a match in progress. *)
Definition groups := gmap nat text.

(** Greedy repetition: take characters of the set while there are any,
    then give back one at a time until the continuation accepts. *)
Fixpoint max_repeat {A} (p : char -> bool) (k : text -> option A)
    (lo : nat) (s : text) : option A :=
  let stop := match lo with O => k s | S _ => None end in
  match s with
  | c :: s' =>
      if p c then
        match max_repeat p k (pred lo) s' with
        | Some a => Some a
        | None => stop
        end
      else stop
  | [] => stop
  end.

(** Lazy repetition: try the continuation first, take one more character
    of the set when it refuses. *)
Fixpoint min_repeat {A} (p : char -> bool) (k : text -> option A)
    (lo : nat) (s : text) : option A :=
  let more :=
    match s with
    | c :: s' => if p c then min_repeat p k (pred lo) s' else None
    | [] => None
    end in
  match lo with
  | O => match k s with Some a => Some a | None => more end
  | S _ => more
  end.

(** The backtracking matcher, in continuation-passing style: [exec r s g k]
    matches [r] at the head of [s] and hands the rest of the text and the
    groups to [k]; the alternatives are tried in the engine's order and the
    first one that [k] accepts wins. *)
Fixpoint exec {A} (r : regex) (s : text) (g : groups)
    (k : text -> groups -> option A) : option A :=
  match r with
  | Empty => k s g
  | Chr c =>
      match s with
      | x :: s' => if (x =? c)%N then k s' g else None
      | [] => None
      end
  | Set_ cs =>
      match s with
      | x :: s' => if mem cs x then k s' g else None
      | [] => None
      end
  | Cat r1 r2 => exec r1 s g (fun s' g' => exec r2 s' g' k)
  | Group n r1 =>
      exec r1 s g (fun s' g' =>
        k s' (<[n := take (length s - length s') s]> g'))
  | MaxRepeat lo cs => max_repeat (mem cs) (fun s' => k s' g) lo s
  | MinRepeat lo cs => min_repeat (mem cs) (fun s' => k s' g) lo s
  end.

(** A match object: where it starts and ends, and its groups. *)
Record Match := { start : nat; stop : nat; captures : groups }.

Definition group (m : Match) (n : nat) : text := default [] (captures m !! n).

(** [r.match(s)] at the head of [s]: the length and the groups. *)
Definition match_ (r : regex) (s : text) : option (nat * groups) :=
  exec r s ∅ (fun s' g => Some ((length s - length s')%nat, g)).

(** [r.finditer(s)]: the leftmost match, then the leftmost match after its
    end, and so on.  [pos] is the offset of [s] in the whole text and
    [skip] the number of characters of [s] that the previous match still
    covers.  (An empty match only moves the scan one character on; the
    script's pattern has none.) *)
Fixpoint scan (r : regex) (pos skip : nat) (s : text) : list Match :=
  let next skip' :=
    match s with
    | [] => []
    | _ :: s' => scan r (S pos) skip' s'
    end in
  match skip with
  | S skip' => next skip'
  | O =>
      match match_ r s with
      | Some (len, g) =>
          {| start := pos; stop := (pos + len)%nat; captures := g |}
            :: next (pred len)
      | None => next O
      end
  end.

Definition finditer (r : regex) (s : text) : list Match := scan r 0 0 s.

End Engine.
End Re.

(* ===================================================================== *)
(** * The parser *)
(* ===================================================================== *)

(** One scraped entry, the dictionary [{"tier": .., "name": .., "rarity": ..}]. *)
Record Miner := { tier : Z; name : text; rarity : text }.

(** [sorted(l, key=key)]: the stable sort by key, as an insertion sort
    that puts an element in front of the elements of the same key that
    came after it.  (A stable sort has one possible result, so this is the
    list that the interpreter's own sort returns.) *)
Fixpoint insert_by {A} (key : A -> Z) (x : A) (l : list A) : list A :=
  match l with
  | [] => [x]
  | y :: l' => if key x <=? key y then x :: l else y :: insert_by key x l'
  end.

Definition sorted {A} (key : A -> Z) (l : list A) : list A :=
  foldr (insert_by key) [] l.

Import Re.

(** The single quote. *)
Definition quote : char := 39%N.

(** [tier:\s*(\d+),\s*name:\s*'([^']+)'[\s\S]*?rarity:\s*'([^']+)'] *)
Definition pattern : regex :=
  cat [ lit "tier:"; MaxRepeat 0 (In [Space]);
        Group 1 (MaxRepeat 1 (In [Digit])); lit ",";
        MaxRepeat 0 (In [Space]); lit "name:"; MaxRepeat 0 (In [Space]);
        Chr quote; Group 2 (MaxRepeat 1 (NotIn [Literal quote])); Chr quote;
        MinRepeat 0 (In [Space; NotSpace]);
        lit "rarity:"; MaxRepeat 0 (In [Space]);
        Chr quote; Group 3 (MaxRepeat 1 (NotIn [Literal quote])); Chr quote ].

Section Parser.
Context `{Unicode}.

(** The entry that the loop of [parse_miners] appends for a match. *)
Definition miner_of_match (m : Match) : Miner :=
  {| tier := int (group m 1); name := group m 2; rarity := group m 3 |}.

(** [parse_miners] after it has read the file: the entries of the matches
    in the order of the text, then sorted by tier. *)
Definition parse_content (content : text) : list Miner :=
  let miners := miner_of_match <$> finditer pattern content in
  sorted tier miners.

End Parser.

(* ===================================================================== *)
(** * Images *)
(* ===================================================================== *)

(** An RGBA pixel. *)
Definition rgba := (Z * Z * Z * Z)%type.

(** An image of mode RGBA: its size and its rows of pixels. *)
Record Image := { width : nat; height : nat; rows : list (list rgba) }.

Definition Image_new (size : nat * nat) (color : rgba) : Image :=
  {| width := size.1; height := size.2;
     rows := replicate size.2 (replicate size.1 color) |}.

(** [img.getpixel((x, y))]; there is no pixel outside the image. *)
Definition getpixel (img : Image) (xy : nat * nat) : option rgba :=
  let '(x, y) := xy in
  if ((x <? width img) && (y <? height img))%nat
  then row ← rows img !! y; row !! x
  else None.

(** The value of a hexadecimal digit. *)
Definition hexdigit (c : char) : option Z :=
  if ((48 <=? c) && (c <=? 57))%N then Some (Z.of_N c - 48)
  else if ((97 <=? c) && (c <=? 102))%N then Some (Z.of_N c - 87)
  else if ((65 <=? c) && (c <=? 70))%N then Some (Z.of_N c - 55)
  else None.

(** The ink of a colour specifier of the form [#rrggbb] on an RGBA image:
    the three bytes, opaque. *)
Definition hexcolor (color : text) : option rgba :=
  match color with
  | [h; r1; r0; g1; g0; b1; b0] =>
      if (h =? 35)%N then
        r1 ← hexdigit r1; r0 ← hexdigit r0;
        g1 ← hexdigit g1; g0 ← hexdigit g0;
        b1 ← hexdigit b1; b0 ← hexdigit b0;
        Some (16 * r1 + r0, 16 * g1 + g0, 16 * b1 + b0, 255)
      else None
  | _ => None
  end.

(** The script names its colours by literals of that form only (lemma
    [literal_colors]); for them [ink] is the library's colour parser. *)
Definition ink (color : text) : rgba := default (0, 0, 0, 0) (hexcolor color).

(** [draw.rectangle([x0, y0, x1, y1], fill=color)]: every pixel of the
    image in the box, borders included, becomes [color]; the part of the
    box outside the image is clipped, and nothing is blended. *)
Definition rectangle (img : Image) (box : nat * nat * nat * nat)
    (fill : text) : Image :=
  let '(x0, y0, x1, y1) := box in
  let color := ink fill in
  {| width := width img; height := height img;
     rows := imap (fun y row =>
               imap (fun x px =>
                 if ((x0 <=? x) && (x <=? x1) && (y0 <=? y) && (y <=? y1))%nat
                 then color else px) row) (rows img) |}.

(** [img.resize(size, Image.Resampling.NEAREST)]: the pixel of the result
    at [(X, Y)] is the pixel of the source under the centre of [(X, Y)],
    at [floor((X + 1/2) * width / W)] and likewise for [Y]. *)
Definition resize_nearest (img : Image) (size : nat * nat) : Image :=
  let '(W, H) := size in
  {| width := W; height := H;
     rows := (fun Y =>
               (fun X =>
                  let x := (((2 * X + 1) * width img) / (2 * W))%nat in
                  let y := (((2 * Y + 1) * height img) / (2 * H))%nat in
                  default (0, 0, 0, 0) (getpixel img (x, y))) <$> seq 0 W)
             <$> seq 0 H |}.

(** [range(a, b)], and a [for] loop over a list that updates a state. *)
Definition range (a b : nat) : list nat := seq a (b - a).

Definition for_ {S B} (l : list B) (s : S) (body : S -> B -> S) : S :=
  foldl body s l.

(* ===================================================================== *)
(** * The icon renderer *)
(* ===================================================================== *)

Definition SCALE : nat := 8.  (* 16x16 -> 128x128 *)
Definition GRID : nat := 16.

Definition RARITY_COLORS : gmap text (text * text) :=
  list_to_map [
    (txt "Common", (txt "#b0b0b0", txt "#7a7a7a"));
    (txt "Rare", (txt "#4aa3df", txt "#2e86de"));
    (txt "Epic", (txt "#b084f5", txt "#8e44ad"));
    (txt "Legendary", (txt "#f7d36a", txt "#f1c40f"));
    (txt "Mythic", (txt "#f39c5a", txt "#e67e22"));
    (txt "Exotic", (txt "#f26d6d", txt "#e74c3c"))
  ].

(** [draw_pixel]: the rectangle of the one pixel [(x, y)]. *)
Definition draw_pixel (img : Image) (x y : nat) (color : text) : Image :=
  rectangle img (x, y, x, y) color.

(** The body of [draw_icon] up to its last line: the 16x16 bitmap. *)
Definition icon_bitmap (rarity : text) (seed : Z) : Image :=
  let '(base, accent) :=
    default (RARITY_COLORS !!! txt "Common") (RARITY_COLORS !! rarity) in
  let img := Image_new (GRID, GRID) (0, 0, 0, 0) in

  (* Background frame (subtle) *)
  let frame := txt "#1c1f24" in
  let img := for_ (range 0 GRID) img (fun img x =>
    let img := draw_pixel img x 0 frame in
    draw_pixel img x (GRID - 1) frame) in
  let img := for_ (range 0 GRID) img (fun img y =>
    let img := draw_pixel img 0 y frame in
    draw_pixel img (GRID - 1) y frame) in

  (* Helmet *)
  let img := for_ (range 2 7) img (fun img y =>
    for_ (range 3 13) img (fun img x =>
      draw_pixel img x y base)) in

  (* Helmet brim *)
  let img := for_ (range 4 12) img (fun img x =>
    draw_pixel img x 7 accent) in

  (* Face *)
  let skin := if seed mod 2 =? 0 then txt "#f2c9a0" else txt "#e3b58a" in
  let img := for_ (range 8 12) img (fun img y =>
    for_ (range 4 12) img (fun img x =>
      draw_pixel img x y skin)) in

  (* Eyes *)
  let eye := txt "#2b2b2b" in
  let img := draw_pixel img 6 9 eye in
  let img := draw_pixel img 9 9 eye in

  (* Mouth *)
  let img := draw_pixel img 7 11 (txt "#7a4b3a") in
  let img := draw_pixel img 8 11 (txt "#7a4b3a") in

  (* Pickaxe handle (diagonal) *)
  let handle := txt "#8b5a2b" in
  let img := for_ (range 0 5) img (fun img i =>
    draw_pixel img (10 + i) (10 + i) handle) in

  (* Pickaxe head *)
  let img := for_ (range 12 15) img (fun img x =>
    let img := draw_pixel img x 9 accent in
    draw_pixel img x 10 accent) in

  (* Accent stripe *)
  let img :=
    if seed mod 3 =? 0 then
      for_ (range 5 11) img (fun img x =>
        draw_pixel img x 4 accent)
    else img in
  img.

(** [draw_icon]: that bitmap, magnified by the last line of the function. *)
Definition draw_icon (rarity : text) (seed : Z) : Image :=
  resize_nearest (icon_bitmap rarity seed) (GRID * SCALE, GRID * SCALE)%nat.

(* ===================================================================== *)
(** * The operating system *)
(* ===================================================================== *)

(** A path, component by component. *)
Definition Path := list text.

Definition joinpath (p : Path) (name : text) : Path := p ++ [name].
Infix "</>" := joinpath (at level 40, left associativity).

(** [str(path)] *)
Definition path_str (p : Path) : text :=
  foldr (fun c acc => txt "/" ++ c ++ acc) [] p.

(** What a file holds: text, or an encoded image. *)
Inductive file :=
| TextFile (content : text)
| ImageFile (img : Image).

(** The world the script runs in: the files, what has been printed, and
    for each of the system calls to come whether the system will refuse it
    (a full disk, a missing permission, a directory in the way; past the
    end of the list nothing is refused). *)
Record World := {
  files : gmap Path file;
  stdout : list text;
  faults : list bool
}.

Inductive exn := OSError | UnicodeDecodeError.

Inductive result (A : Type) :=
| Ok (a : A)
| Raise (e : exn).
Arguments Ok {A} a.
Arguments Raise {A} e.

(** A computation that reads and changes the world and returns or raises.
    The world it leaves behind is there in both cases. *)
Definition IO (A : Type) : Type := World -> result A * World.

#[export] Instance IO_ret : MRet IO := fun A a w => (Ok a, w).
#[export] Instance IO_bind : MBind IO := fun A B f m w =>
  match m w with
  | (Ok a, w') => f a w'
  | (Raise e, w') => (Raise e, w')
  end.

Definition raise {A} (e : exn) : IO A := fun w => (Raise e, w).

(** One system call: it goes through unless the system refuses it. *)
Definition syscall : IO () := fun w =>
  match faults w with
  | [] => (Ok (), w)
  | refused :: rest =>
      let w' := {| files := files w; stdout := stdout w; faults := rest |} in
      (if refused : bool then Raise OSError else Ok (), w')
  end.

Definition store (path : Path) (f : file) : IO () := fun w =>
  (Ok (), {| files := <[path := f]> (files w);
             stdout := stdout w; faults := faults w |}).

(** The text of a file that is there and holds text. *)
Definition fetch (path : Path) : IO text := fun w =>
  match files w !! path with
  | Some (TextFile content) => (Ok content, w)
  | Some (ImageFile _) => (Raise UnicodeDecodeError, w)
  | None => (Raise OSError, w)
  end.

(** [path.read_text(encoding="utf-8")] *)
Definition read_text (path : Path) : IO text :=
  syscall;; fetch path.

(** [path.write_text(data, encoding="utf-8")]; a refused write leaves the
    files as they were. *)
Definition write_text (path : Path) (content : text) : IO () :=
  syscall;; store path (TextFile content).

(** [img.save(path)] *)
Definition save (img : Image) (path : Path) : IO () :=
  syscall;; store path (ImageFile img).

(** [path.mkdir(parents=True, exist_ok=True)]; directories themselves are
    not part of the model, only that making one may be refused. *)
Definition mkdir (path : Path) : IO () := syscall.

(** [print(line)] *)
Definition print (line : text) : IO () := fun w =>
  (Ok (), {| files := files w; stdout := stdout w ++ [line];
             faults := faults w |}).

(** A [for] loop whose body has effects. *)
Fixpoint for_io {B} (l : list B) (body : B -> IO ()) : IO () :=
  match l with
  | [] => mret ()
  | x :: l' => body x;; for_io l' body
  end.

(** [json.dumps(d, indent=2)] for a dictionary of integers and of strings
    that need no escaping. *)
Inductive json :=
| JInt (n : Z)
| JStr (s : text).

Definition newline : text := [10%N].
Definition dquote : text := [34%N].

Definition json_value (v : json) : text :=
  match v with
  | JInt n => str n
  | JStr s => dquote ++ s ++ dquote
  end.

Definition json_member (kv : text * json) : text :=
  txt "  " ++ dquote ++ kv.1 ++ dquote ++ txt ": " ++ json_value kv.2.

Fixpoint json_members (d : list (text * json)) : text :=
  match d with
  | [] => []
  | [kv] => json_member kv
  | kv :: d' => json_member kv ++ txt "," ++ newline ++ json_members d'
  end.

Definition json_dumps (d : list (text * json)) : text :=
  match d with
  | [] => txt "{}"
  | _ => txt "{" ++ newline ++ json_members d ++ newline ++ txt "}"
  end.

(* ===================================================================== *)
(** * The script *)
(* ===================================================================== *)

(** [Path(__file__).resolve().parents[1]]: where the repository is. *)
Class Install := { ROOT : Path }.

Section Script.
Context `{Unicode, Install}.

Definition OUTPUT_DIR : Path := ROOT </> txt "assets" </> txt "ui" </> txt "miners".
Definition DATABASE_PATH : Path :=
  ROOT </> txt "src" </> txt "Miner" </> txt "MinerDatabase.ts".

Definition parse_miners (path : Path) : IO (list Miner) :=
  content ← read_text path;
  mret (parse_content content).

Definition main : IO () :=
  miners ← parse_miners DATABASE_PATH;
  mkdir OUTPUT_DIR;;

  for_io miners (fun miner =>
    let tier := miner.(tier) in
    let rarity := miner.(rarity) in
    let icon := draw_icon rarity tier in
    let output := OUTPUT_DIR </> (txt "tier-" ++ str tier ++ txt ".png") in
    save icon output;;
    print (txt "wrote " ++ path_str output));;

  let manifest := [
    (txt "size", JInt (Z.of_nat (GRID * SCALE)));
    (txt "count", JInt (Z.of_nat (length miners)));
    (txt "path", JStr (txt "assets/ui/miners"))
  ] in
  write_text (OUTPUT_DIR </> txt "manifest.json") (json_dumps manifest).

End Script.


(* ===================================================================== *)
(** * Sample inputs *)
(* ===================================================================== *)

(** An installation, for the examples. *)
Definition repo : Install := {| ROOT := [txt "home"; txt "repo"] |}.

(** A world with one text file and nothing printed, in which the system
    refuses the calls that [faults] says. *)
Definition world_with (path : Path) (content : text) (faults : list bool)
    : World :=
  {| files := {[ path := TextFile content ]}; stdout := []; faults := faults |}.

(** Three entries whose tiers come in the order 5, 1, 3. *)
Definition three_records : text :=
  txt "export const MINERS = [
  { tier: 5, name: 'Deep Driller', rarity: 'Epic' },
  { tier: 1, name: 'Rookie',
    rarity: 'Common' },
  { tier: 3, name: 'Foreman', hp: 10, rarity: 'Rare' },
];".

(* ===================================================================== *)
(** * The vocabulary of the statements about icons *)
(* ===================================================================== *)

(** The six rarities that have colours of their own. *)
Definition known_rarities : list text :=
  [txt "Common"; txt "Rare"; txt "Epic"; txt "Legendary"; txt "Mythic";
   txt "Exotic"].

(** The base and accent colours that [draw_icon] uses for a rarity. *)
Definition palette (rarity : text) : text * text :=
  default (RARITY_COLORS !!! txt "Common") (RARITY_COLORS !! rarity).

(** The accent stripe: the pixels 5 to 10 of row 4 of the 16x16 grid, that
    is at magnification [scale] a band [scale] pixels high. *)
Definition has_stripe (rarity : text) (scale : nat) (img : Image) : Prop :=
  ∀ X Y : nat,
    (5 * scale ≤ X < 11 * scale)%nat -> (4 * scale ≤ Y < 5 * scale)%nat ->
    getpixel img (X, Y) = Some (ink (palette rarity).2).

(** The face: the rectangle of columns 4 to 11 and rows 8 to 11 of the
    grid.  The eyes, the mouth and the two pixels of the pickaxe handle
    that cross it are painted over it. *)
Definition in_face (xy : nat * nat) : Prop :=
  (4 ≤ xy.1 < 12 ∧ 8 ≤ xy.2 < 12)%nat.

Definition over_face : list (nat * nat) :=
  [(6, 9); (9, 9); (7, 11); (8, 11); (10, 10); (11, 11)]%nat.

(** The pixels of the grid that show skin. *)
Definition shows_skin (xy : nat * nat) : Prop := in_face xy ∧ xy ∉ over_face.

(** The two skin tones. *)
Definition tone_even : rgba := ink (txt "#f2c9a0").
Definition tone_odd : rgba := ink (txt "#e3b58a").

(** The seeds modulo 6, and the pixels of the grid. *)
Definition residues : list Z := [0; 1; 2; 3; 4; 5].

Definition grid_pixels : list (nat * nat) :=
  y ← seq 0 GRID; x ← seq 0 GRID; [(x, y)].

(** What is checked, bitmap by bitmap, of the 36 bitmaps of the known
    rarities and the residues: the size, the stripe, the skin, and that
    everything but the skin is as in [ref], the bitmap of the same rarity
    and stripe condition with the seed 0 or 1. *)
Definition bitmap_facts (key : text) (s : Z) (img ref : Image) : Prop :=
  width img = GRID ∧ height img = GRID
  ∧ length (rows img) = GRID ∧ Forall (λ row, length row = GRID) (rows img)
  ∧ (Forall (λ x, getpixel img (x, 4%nat) = Some (ink (palette key).2))
       (range 5 11) ↔ s mod 3 = 0)
  ∧ Forall (λ xy,
       if bool_decide (shows_skin xy)
       then getpixel img xy = Some (if s mod 2 =? 0 then tone_even else tone_odd)
       else getpixel img xy = getpixel ref xy) grid_pixels.

#[local] Instance in_face_dec xy : Decision (in_face xy).
Proof. unfold in_face. apply _. Defined.

#[local] Instance shows_skin_dec xy : Decision (shows_skin xy).
Proof. unfold shows_skin. apply _. Defined.

#[local] Instance bitmap_facts_dec key s img ref :
  Decision (bitmap_facts key s img ref).
Proof.
  unfold bitmap_facts.
  repeat (apply and_dec; [apply _|]).
  apply Forall_dec. intros xy. destruct (bool_decide _); apply _.
Defined.

(* ===================================================================== *)
(** * The vocabulary of the statements about the pattern *)
(* ===================================================================== *)

(** The two ends of the pattern: the tier and the name of a block, and the
    rarity field.  Between them the pattern has [[\s\S]*?]. *)
Definition tier_name : list Re.regex :=
  [ lit "tier:"; MaxRepeat 0 (In [Space]);
       Group 1 (MaxRepeat 1 (In [Digit])); lit ",";
       MaxRepeat 0 (In [Space]); lit "name:"; MaxRepeat 0 (In [Space]);
       Chr quote; Group 2 (MaxRepeat 1 (NotIn [Literal quote])); Chr quote ].

Definition rarity_field : list Re.regex :=
  [ lit "rarity:"; MaxRepeat 0 (In [Space]);
       Chr quote; Group 3 (MaxRepeat 1 (NotIn [Literal quote])); Chr quote ].

(** The words of a pattern, without regard to the order in which the
    engine tries them. *)
Fixpoint lang `{Unicode} (r : Re.regex) (w : text) : Prop :=
  match r with
  | Re.Empty => w = []
  | Re.Chr c => w = [c]
  | Re.Set_ cs => ∃ c, w = [c] ∧ Re.mem cs c = true
  | Re.Cat r1 r2 => ∃ w1 w2, w = w1 ++ w2 ∧ lang r1 w1 ∧ lang r2 w2
  | Re.Group _ r1 => lang r1 w
  | Re.MaxRepeat lo cs | Re.MinRepeat lo cs =>
      (lo ≤ length w)%nat ∧ Forall (λ c, Re.mem cs c = true) w
  end.

(* ===================================================================== *)
(** * The vocabulary of the statements about a run *)
(* ===================================================================== *)

(** [r.search(s) is not None]: the pattern matches somewhere in the text. *)
Definition search `{Unicode} (r : Re.regex) (s : text) : bool :=
  existsb (λ i, bool_decide (is_Some (Re.match_ r (drop i s))))
    (seq 0 (S (length s))).

(** The system refuses none of the calls to come. *)
Definition quiet (w : World) : Prop :=
  Forall (λ refused, refused = false) (faults w).

(** The world after [n] system calls that changed nothing else. *)
Definition spend (n : nat) (w : World) : World :=
  {| files := files w; stdout := stdout w; faults := drop n (faults w) |}.

Section Steps.
Context `{Install}.

(** The files of a run. *)
Definition icon_path (tier : Z) : Path :=
  OUTPUT_DIR </> (txt "tier-" ++ str tier ++ txt ".png").

Definition manifest_path : Path := OUTPUT_DIR </> txt "manifest.json".

Definition manifest_of (count : nat) : list (text * json) :=
  [ (txt "size", JInt 128);
    (txt "count", JInt (Z.of_nat count));
    (txt "path", JStr (txt "assets/ui/miners")) ].

(** The steps of [main]: the body of its loop, and what it does once it
    has the entries. *)
Definition write_icon (miner : Miner) : IO () :=
  save (draw_icon miner.(rarity) miner.(tier)) (icon_path miner.(tier));;
  print (txt "wrote " ++ path_str (icon_path miner.(tier))).

Definition generate (miners : list Miner) : IO () :=
  mkdir OUTPUT_DIR;;
  for_io miners write_icon;;
  write_text manifest_path (json_dumps (manifest_of (length miners))).

(** The world after the loop of [main] has written an icon, when the
    system lets it. *)
Definition icon_written (w : World) (miner : Miner) : World :=
  {| files := <[icon_path miner.(tier) :=
                 ImageFile (draw_icon miner.(rarity) miner.(tier))]> (files w);
     stdout := stdout w ++ [txt "wrote " ++ path_str (icon_path miner.(tier))];
     faults := drop 1 (faults w) |}.


End Steps.

(** A computation that leaves the file at [path] as it is, whether it
    returns or raises. *)
Definition keeps (path : Path) {A} (m : IO A) : Prop :=
  ∀ w r w', m w = (r, w') -> files w' !! path = files w !! path.



(** The two entries of the end-to-end example, and a data file with them. *)
Definition miner_A : Miner :=
  {| tier := 1; name := txt "A"; rarity := txt "Common" |}.
Definition miner_B : Miner :=
  {| tier := 7; name := txt "B"; rarity := txt "Mythic" |}.

Definition two_records : text :=
  txt "export const MINERS = [
  { tier: 1, name: 'A', rarity: 'Common' },
  { tier: 7, name: 'B', rarity: 'Mythic' },
];".


(** A complete entry, then a block with a tier and a name and no rarity. *)
Definition broken_record : text :=
  txt "{ tier: 1, name: 'A', rarity: 'Common' },
{ tier: 2, name: 'Broken' },".

(** No entry at all. *)
Definition no_records : text :=
  txt "export const MINERS = [
  // tier: ?, name: 'nobody', rarity: 'Common'
];".

(* ===================================================================== *)
(** * The vocabulary of the further statements *)
(* ===================================================================== *)

(** The words of a pattern together with the groups they leave: [glang r w
    g g'] when [w] is a word of [r] and matching it turns the groups [g]
    into [g']. *)
Fixpoint glang `{Unicode} (r : Re.regex) (w : text) (g g' : Re.groups) : Prop :=
  match r with
  | Re.Empty => w = [] ∧ g' = g
  | Re.Chr c => w = [c] ∧ g' = g
  | Re.Set_ cs => (∃ c, w = [c] ∧ Re.mem cs c = true) ∧ g' = g
  | Re.Cat r1 r2 =>
      ∃ w1 w2 g1, w = w1 ++ w2 ∧ glang r1 w1 g g1 ∧ glang r2 w2 g1 g'
  | Re.Group n r1 => ∃ g1, glang r1 w g g1 ∧ g' = <[n := w]> g1
  | Re.MaxRepeat lo cs | Re.MinRepeat lo cs =>
      ((lo ≤ length w)%nat ∧ Forall (λ c, Re.mem cs c = true) w) ∧ g' = g
  end.

(** The part of the text that a match covers. *)
Definition matched (content : text) (m : Re.Match) : text :=
  take (Re.stop m - Re.start m) (drop (Re.start m) content).

(** The example of an entry without a rarity of its own in front of a
    complete one. *)
Definition crossed_records : text :=
  txt "{ tier: 1, name: 'A' },
{ tier: 2, name: 'B', rarity: 'Rare' },".

(** The colour of the pixel [(x, y)] of the 16x16 bitmap, read off the
    strokes of [draw_icon] from the last to the first: a pixel has the
    colour of the last stroke that covers it, and no colour at all when no
    stroke does. *)
Definition within (a b v : nat) : bool := ((a <=? v) && (v <? b))%nat.

Definition layer_pixel (base accent : text) (seed : Z) (xy : nat * nat)
    : rgba :=
  let '(x, y) := xy in
  if (seed mod 3 =? 0) && within 5 11 x && (y =? 4)%nat then ink accent
  else if within 12 15 x && within 9 11 y then ink accent
  else if within 10 15 x && (y =? x)%nat then ink (txt "#8b5a2b")
  else if within 7 9 x && (y =? 11)%nat then ink (txt "#7a4b3a")
  else if ((x =? 6) || (x =? 9))%nat && (y =? 9)%nat then ink (txt "#2b2b2b")
  else if within 4 12 x && within 8 12 y then
    ink (if seed mod 2 =? 0 then txt "#f2c9a0" else txt "#e3b58a")
  else if within 4 12 x && (y =? 7)%nat then ink accent
  else if within 3 13 x && within 2 7 y then ink base
  else if ((x =? 0) || (x =? 15) || (y =? 0) || (y =? 15))%nat
    then ink (txt "#1c1f24")
  else (0, 0, 0, 0).

(** A bitmap that is, pixel by pixel, what [layer_pixel] says. *)
Definition layers_match (colors : text * text) (s : Z) (img : Image) : Prop :=
  Forall (λ xy, getpixel img xy = Some (layer_pixel colors.1 colors.2 s xy))
    grid_pixels.

#[local] Instance layers_match_dec colors s img :
  Decision (layers_match colors s img).
Proof. unfold layers_match. apply _. Defined.


(** The first [n] system calls to come are not refused. *)
Definition clear (n : nat) (w : World) : Prop :=
  Forall (λ refused, refused = false) (take n (faults w)).



Section MoreSteps.
Context `{Install}.

(** The files after the icons of the entries have been written, in their
    order, and the lines printed for them. *)
Definition icons_files (miners : list Miner) (fs : gmap Path file)
    : gmap Path file :=
  foldl (λ fs miner,
           <[icon_path miner.(tier) :=
               ImageFile (draw_icon miner.(rarity) miner.(tier))]> fs)
    fs miners.

Definition progress (miners : list Miner) : list text :=
  (λ miner, txt "wrote " ++ path_str (icon_path miner.(tier))) <$> miners.

End MoreSteps.


(* ===================================================================== *)
(** * Sorting *)
(* ===================================================================== *)

Section Sorting.
Context {A : Type} (key : A -> Z).

Lemma insert_by_perm x l : insert_by key x l ≡ₚ x :: l.
Proof.
  induction l as [|y l IH]; simpl; [done|].
  destruct (key x <=? key y); [done|].
  rewrite IH. apply perm_swap.
Qed.

Lemma sorted_perm l : sorted key l ≡ₚ l.
Proof.
  induction l as [|x l IH]; simpl; [done|].
  by rewrite insert_by_perm, IH.
Qed.





Lemma sorted_length l : length (sorted key l) = length l.
Proof. by rewrite sorted_perm. Qed.

End Sorting.



(* ===================================================================== *)
(** * The pattern *)
(* ===================================================================== *)

Section Pattern.
Context `{Unicode}.

Lemma pattern_parts :
  pattern = cat (tier_name ++ [MinRepeat 0 (In [Space; NotSpace])] ++ rarity_field).
Proof. reflexivity. Qed.

(** ** What the engine matches is a word of the pattern *)

Lemma max_repeat_sound {A} p (k : text -> option A) lo s a :
  max_repeat p k lo s = Some a ->
  ∃ w s', s = w ++ s' ∧ (lo ≤ length w)%nat
          ∧ Forall (λ c, p c = true) w ∧ k s' = Some a.
Proof.
  revert lo. induction s as [|c s IH]; intros lo; cbn [max_repeat].
  - destruct lo; [|done]. intros Hk. by exists [], [].
  - assert (match lo with O => k (c :: s) | S _ => None end = Some a ->
            ∃ w s', c :: s = w ++ s' ∧ (lo ≤ length w)%nat
                    ∧ Forall (λ c, p c = true) w ∧ k s' = Some a) as Hstop.
    { destruct lo; [|done]. intros Hk. by exists [], (c :: s). }
    destruct (p c) eqn:Hpc; [|exact Hstop].
    destruct (max_repeat p k (pred lo) s) as [a'|] eqn:Hmore; [|exact Hstop].
    intros [= ->]. destruct (IH _ Hmore) as (w & s' & -> & Hlo & Hw & Hk).
    exists (c :: w), s'. split_and!; [done | cbn; lia | by constructor | done].
Qed.

Lemma min_repeat_sound {A} p (k : text -> option A) lo s a :
  min_repeat p k lo s = Some a ->
  ∃ w s', s = w ++ s' ∧ (lo ≤ length w)%nat
          ∧ Forall (λ c, p c = true) w ∧ k s' = Some a.
Proof.
  revert lo. induction s as [|c s IH]; intros lo.
  - destruct lo; cbn [min_repeat]; [|done].
    destruct (k []) as [a'|] eqn:Hk; [|done].
    intros [= ->]. by exists [], [].
  - assert (min_repeat p k (pred lo) s = Some a ->
            p c = true ->
            ∃ w s', c :: s = w ++ s' ∧ (lo ≤ length w)%nat
                    ∧ Forall (λ c, p c = true) w ∧ k s' = Some a) as Hmore.
    { intros Hm Hpc. destruct (IH _ Hm) as (w & s' & -> & Hlo & Hw & Hk).
      exists (c :: w), s'.
      split_and!; [done | cbn; lia | by constructor | done]. }
    destruct lo as [|lo]; cbn [min_repeat].
    + destruct (k (c :: s)) as [a'|] eqn:Hk.
      * intros [= ->]. by exists [], (c :: s).
      * destruct (p c) eqn:Hpc; [|done]. intros Hm. by apply Hmore.
    + destruct (p c) eqn:Hpc; [|done]. intros Hm. by apply Hmore.
Qed.

Lemma exec_sound {A} r s g (k : text -> groups -> option A) a :
  exec r s g k = Some a ->
  ∃ w s' g', s = w ++ s' ∧ lang r w ∧ k s' g' = Some a.
Proof.
  revert A s g k a.
  induction r as [|c|cs|r1 IH1 r2 IH2|n r IH|lo cs|lo cs];
    intros A s g k a; cbn [exec lang].
  - intros Hk. by exists [], s, g.
  - destruct s as [|x s]; [done|].
    destruct (N.eqb_spec x c) as [->|]; [|done].
    intros Hk. by exists [c], s, g.
  - destruct s as [|x s]; [done|].
    destruct (mem cs x) eqn:Hx; [|done].
    intros Hk. exists [x], s, g. split_and!; [done | by exists x | done].
  - intros Hexec.
    destruct (IH1 _ _ _ _ _ Hexec) as (w1 & s1 & g1 & -> & Hw1 & Hexec2).
    destruct (IH2 _ _ _ _ _ Hexec2) as (w2 & s2 & g2 & -> & Hw2 & Hk).
    exists (w1 ++ w2), s2, g2.
    split_and!; [by rewrite (assoc_L (++)) | by exists w1, w2 | done].
  - intros Hexec.
    destruct (IH _ _ _ _ _ Hexec) as (w & s' & g' & -> & Hw & Hk).
    by eexists w, s', _.
  - intros Hexec.
    destruct (max_repeat_sound _ _ _ _ _ Hexec) as (w & s' & -> & Hlo & Hw & Hk).
    by exists w, s', g.
  - intros Hexec.
    destruct (min_repeat_sound _ _ _ _ _ Hexec) as (w & s' & -> & Hlo & Hw & Hk).
    by exists w, s', g.
Qed.

Lemma exec_cat_sound {A} rs1 rs2 s g (k : text -> groups -> option A) a :
  exec (cat (rs1 ++ rs2)) s g k = Some a ->
  ∃ w s' g', s = w ++ s' ∧ lang (cat rs1) w ∧ exec (cat rs2) s' g' k = Some a.
Proof.
  revert s g. induction rs1 as [|r rs1 IH]; intros s g.
  - intros Hexec. by exists [], s, g.
  - cbn [app cat foldr exec]. intros Hexec.
    destruct (exec_sound _ _ _ _ _ Hexec) as (w1 & s1 & g1 & -> & Hw1 & Hrest).
    destruct (IH _ _ Hrest) as (w2 & s2 & g2 & -> & Hw2 & Hk).
    exists (w1 ++ w2), s2, g2.
    split_and!; [by rewrite (assoc_L (++)) | by exists w1, w2 | done].
Qed.

(** ** Whether the engine matches does not depend on the groups, and on
    the continuation only through where it accepts *)

Lemma max_repeat_accepts {A B} p (k : text -> option A) (k' : text -> option B)
    lo s :
  (∀ s', is_Some (k s') -> is_Some (k' s')) ->
  is_Some (max_repeat p k lo s) -> is_Some (max_repeat p k' lo s).
Proof.
  intros Hk. revert lo. induction s as [|c s IH]; intros lo; cbn [max_repeat].
  - destruct lo; [apply Hk | done].
  - assert (is_Some (match lo with O => k (c :: s) | S _ => None end) ->
            is_Some (match lo with O => k' (c :: s) | S _ => None end)) as Hstop
      by (destruct lo; [apply Hk | done]).
    destruct (p c); [|exact Hstop].
    specialize (IH (pred lo)).
    destruct (max_repeat p k (pred lo) s) as [a|].
    + intros _. destruct (IH ltac:(done)) as [b ->]. done.
    + intros Hs. destruct (max_repeat p k' (pred lo) s); [done | by apply Hstop].
Qed.

Lemma min_repeat_accepts {A B} p (k : text -> option A) (k' : text -> option B)
    lo s :
  (∀ s', is_Some (k s') -> is_Some (k' s')) ->
  is_Some (min_repeat p k lo s) -> is_Some (min_repeat p k' lo s).
Proof.
  intros Hk. revert lo. induction s as [|c s IH]; intros lo.
  - destruct lo; cbn [min_repeat]; [|done].
    intros Hs. destruct (k []) as [a|] eqn:Hka; [|by destruct Hs].
    destruct (Hk [] ltac:(by rewrite Hka)) as [b ->]. done.
  - destruct lo as [|lo]; cbn [min_repeat].
    + destruct (k' (c :: s)) as [b|] eqn:Hkb; [done|].
      destruct (k (c :: s)) as [a|] eqn:Hka.
      { destruct (Hk (c :: s) ltac:(by rewrite Hka)) as [b Hb]. congruence. }
      destruct (p c); [apply IH | done].
    + destruct (p c); [apply IH | done].
Qed.

Lemma exec_accepts {A B} r s g g0
    (k : text -> groups -> option A) (k' : text -> groups -> option B) :
  (∀ s' g1 g2, is_Some (k s' g1) -> is_Some (k' s' g2)) ->
  is_Some (exec r s g k) -> is_Some (exec r s g0 k').
Proof.
  revert A B s g g0 k k'.
  induction r as [|c|cs|r1 IH1 r2 IH2|n r IH|lo cs|lo cs];
    intros A B s g g0 k k' Hk; cbn [exec].
  - apply Hk.
  - destruct s as [|x s]; [done|]. destruct (x =? c)%N; [apply Hk | done].
  - destruct s as [|x s]; [done|]. destruct (mem cs x); [apply Hk | done].
  - apply IH1. intros s' g1 g2. by apply IH2.
  - apply IH. intros s' g1 g2. apply Hk.
  - apply max_repeat_accepts. intros s'. apply Hk.
  - apply min_repeat_accepts. intros s'. apply Hk.
Qed.

(** ** Where [finditer] finds its matches *)

Lemma search_none r s :
  search r s = false -> ∀ i, match_ r (drop i s) = None.
Proof.
  unfold search. intros Hs i.
  assert (∀ j, (j ≤ length s)%nat -> match_ r (drop j s) = None) as Hin.
  { intros j Hj. destruct (match_ r (drop j s)) eqn:Hm; [|done].
    assert (existsb (λ i, bool_decide (is_Some (match_ r (drop i s))))
              (seq 0 (S (length s))) = true) as Habs; [|congruence].
    apply existsb_exists. exists j. split.
    - apply in_seq. lia.
    - rewrite Hm. by apply bool_decide_eq_true_2. }
  destruct (decide (i ≤ length s)%nat) as [Hi|Hi]; [by apply Hin|].
  rewrite drop_ge by lia. rewrite <- (drop_all s). by apply Hin.
Qed.

Lemma scan_none r pos s :
  (∀ i, match_ r (drop i s) = None) -> scan r pos 0 s = [].
Proof.
  revert pos. induction s as [|c s IH]; intros pos Hnone;
    pose proof (Hnone 0%nat) as Hhere; rewrite drop_0 in Hhere;
    cbn [scan]; rewrite Hhere.
  - done.
  - apply IH. intros i. apply (Hnone (S i)).
Qed.


Lemma scan_start r pos skip s m :
  m ∈ scan r pos skip s ->
  (pos + skip ≤ start m)%nat ∧ is_Some (match_ r (drop (start m - pos) s)).
Proof.
  revert pos skip. induction s as [|c s IH]; intros pos skip; cbn [scan].
  - destruct skip; [|by intros ?%elem_of_nil].
    destruct (match_ r []) as [[len g]|] eqn:Hm; [|by intros ?%elem_of_nil].
    intros ->%list_elem_of_singleton. cbn [start].
    rewrite Nat.sub_diag, drop_0, Hm. split; [lia | done].
  - assert (∀ skip', m ∈ scan r (S pos) skip' s ->
              (pos + S skip' ≤ start m)%nat
              ∧ is_Some (match_ r (drop (start m - pos) (c :: s)))) as Hnext.
    { intros skip' [Hle Hm]%IH. split; [lia|].
      by replace (start m - pos)%nat with (S (start m - S pos)) by lia. }
    destruct skip as [|skip].
    + destruct (match_ r (c :: s)) as [[len g]|] eqn:Hm.
      * intros [->|Hin]%elem_of_cons.
        -- cbn [start]. rewrite Nat.sub_diag, drop_0, Hm. split; [lia | done].
        -- destruct (Hnext _ Hin). split; [lia | done].
      * intros Hin. destruct (Hnext _ Hin). split; [lia | done].
    + intros Hin. destruct (Hnext _ Hin). split; [lia | done].
Qed.

Lemma finditer_start r s m :
  m ∈ finditer r s -> is_Some (match_ r (drop (start m) s)).
Proof.
  intros [_ Hm]%scan_start. by rewrite Nat.sub_0_r in Hm.
Qed.

(** ** The words of the two ends of the pattern *)

Lemma lang_chars l w : lang (cat (Chr <$> l)) w ↔ w = l.
Proof.
  revert w. induction l as [|c l IH]; intros w; cbn [fmap list_fmap cat foldr lang].
  - done.
  - split.
    + intros (w1 & w2 & -> & -> & Hw2). apply IH in Hw2. by subst.
    + intros ->. exists [c], l. split_and!; [done | done | by apply IH].
Qed.

Lemma lang_lit str w : lang (lit str) w ↔ w = txt str.
Proof. apply lang_chars. Qed.

Lemma lang_cat_cons r rs w :
  lang (cat (r :: rs)) w ↔ ∃ w1 w2, w = w1 ++ w2 ∧ lang r w1 ∧ lang (cat rs) w2.
Proof. reflexivity. Qed.

(** A block with a tier and a name has two quotes, around the name; it
    ends with the second. *)
Lemma lang_tier_name w :
  isspace quote = false -> decimal quote = None ->
  lang (cat tier_name) w ->
  ∃ before name, w = before ++ [quote] ++ name ++ [quote]
                 ∧ (quote ∉ before) ∧ (quote ∉ name).
Proof.
  intros Hspace Hdigit. unfold tier_name.
  assert (∀ w, Forall (λ c, mem (In [Space]) c = true) w -> quote ∉ w) as Hsp.
  { intros w' Hw' Hin. rewrite Forall_forall in Hw'.
    specialize (Hw' _ Hin). cbn in Hw'. by rewrite Hspace in Hw'. }
  assert (∀ w, Forall (λ c, mem (In [Digit]) c = true) w -> quote ∉ w) as Hdg.
  { intros w' Hw' Hin. rewrite Forall_forall in Hw'.
    specialize (Hw' _ Hin). cbn in Hw'. rewrite Hdigit in Hw'.
    rewrite bool_decide_eq_false_2 in Hw' by (by intros [? ?]). done. }
  assert (∀ w, Forall (λ c, mem (NotIn [Literal quote]) c = true) w -> quote ∉ w)
    as Hnq.
  { intros w' Hw' Hin. rewrite Forall_forall in Hw'.
    specialize (Hw' _ Hin). vm_compute in Hw'. discriminate Hw'. }
  intros (w1 & ? & -> & ->%lang_lit & w2 & ? & -> & [_ Hw2]
          & w3 & ? & -> & [_ Hw3] & w4 & ? & -> & ->%lang_lit
          & w5 & ? & -> & [_ Hw5] & w6 & ? & -> & ->%lang_lit
          & w7 & ? & -> & [_ Hw7] & w8 & ? & -> & ->
          & w9 & ? & -> & [_ Hw9] & w10 & ? & -> & -> & ->).
  exists (txt "tier:" ++ w2 ++ w3 ++ txt "," ++ w5 ++ txt "name:" ++ w7), w9.
  split; [by rewrite <- !(assoc_L (++))|]. split; [|by apply Hnq].
  rewrite !not_elem_of_app. split_and!; auto;
    apply (bool_decide_unpack _); vm_compute; exact I.
Qed.

Lemma first_occurrence_unique {A} (x : A) l1 l2 t1 t2 :
  x ∉ l1 -> x ∉ l2 -> l1 ++ [x] ++ t1 = l2 ++ [x] ++ t2 -> l1 = l2 ∧ t1 = t2.
Proof.
  revert l2. induction l1 as [|y l1 IH]; intros [|z l2] Hx1 Hx2 Heq;
    cbn in Heq.
  - by injection Heq as ->.
  - injection Heq as -> _. exfalso. apply Hx2. by left.
  - injection Heq as -> _. exfalso. apply Hx1. by left.
  - injection Heq as -> Heq.
    destruct (IH l2) as [-> ->]; [| |exact Heq|done].
    + intros Hin. apply Hx1. by right.
    + intros Hin. apply Hx2. by right.
Qed.

(** So a text begins with at most one such block. *)
Lemma tier_name_unique w1 s1 w2 s2 :
  isspace quote = false -> decimal quote = None ->
  lang (cat tier_name) w1 -> lang (cat tier_name) w2 ->
  w1 ++ s1 = w2 ++ s2 -> w1 = w2 ∧ s1 = s2.
Proof.
  intros Hspace Hdigit
    (b1 & n1 & -> & Hb1 & Hn1)%lang_tier_name
    (b2 & n2 & -> & Hb2 & Hn2)%lang_tier_name; try done.
  rewrite <- !(assoc_L (++)).
  intros [-> Heq]%first_occurrence_unique; try done.
  apply first_occurrence_unique in Heq as [-> ->]; done.
Qed.

(** ** No rarity, no match *)

(** A match of the pattern is a block with a tier and a name and, in what
    follows it, a rarity field. *)
Lemma match_pattern_parts s :
  is_Some (match_ pattern s) ->
  ∃ w rest, s = w ++ rest ∧ lang (cat tier_name) w
            ∧ search (cat rarity_field) rest = true.
Proof.
  intros [a Hmatch]. unfold match_ in Hmatch. rewrite pattern_parts in Hmatch.
  apply exec_cat_sound in Hmatch as (w & rest & g & -> & Hw & Hrest).
  apply (exec_cat_sound [_]) in Hrest as (any & field & g' & -> & _ & Hfield).
  exists w, (any ++ field). split_and!; [done | done |].
  unfold search. apply existsb_exists. exists (length any). split.
  - apply in_seq. rewrite length_app. lia.
  - apply bool_decide_eq_true_2. rewrite drop_app_length.
    unfold match_. eapply exec_accepts; [|by rewrite Hfield]. done.
Qed.

(** A match of the pattern is never empty, so [finditer] never has to
    step over an empty match. *)
Lemma match_pattern_nonempty s len g :
  match_ pattern s = Some (len, g) -> (5 ≤ len)%nat.
Proof.
  unfold match_. intros Hmatch.
  apply (exec_cat_sound [lit "tier:"]) in Hmatch
    as (w & rest & g' & -> & Hw & Hrest).
  apply exec_sound in Hrest as (w' & rest' & g'' & -> & _ & [= <- _]).
  destruct Hw as (w1 & ? & -> & ->%lang_lit & ->).
  rewrite !length_app. cbn. lia.
Qed.

(** C7. A block with a tier and a name after which the text has no rarity
    field gives no entry: no match of [finditer], so no entry of the
    parser, begins at that block.  (The interpreter's tables are taken to
    know that the quote is neither white space nor a digit.)  And a text
    with no rarity field at all gives no entry at all. *)
Theorem block_without_rarity_excluded content :
  isspace quote = false -> decimal quote = None ->
  (∀ i len,
     fst <$> match_ (cat tier_name) (drop i content) = Some len ->
     search (cat rarity_field) (drop (i + len) content) = false ->
     ∀ m, m ∈ finditer pattern content -> start m ≠ i)
  ∧ (search (cat rarity_field) content = false -> parse_content content = []).
Proof.
  intros Hspace Hdigit. split.
  - intros i len Hblock Hnone m Hm <-.
    apply finditer_start, match_pattern_parts in Hm
      as (w & rest & Hsplit & Hw & Hfield).
    destruct (match_ (cat tier_name) (drop (start m) content))
      as [[len' g]|] eqn:Hmatch; [|done].
    injection Hblock as ->. unfold match_ in Hmatch.
    apply exec_sound in Hmatch
      as (w' & rest' & g' & Hsplit' & Hw' & [= <- _]).
    rewrite Hsplit in Hsplit'.
    destruct (tier_name_unique _ _ _ _ Hspace Hdigit Hw Hw' Hsplit')
      as [<- <-].
    rewrite <- drop_drop, Hsplit in Hnone.
    rewrite length_app, Nat.add_sub, drop_app_length in Hnone. congruence.
  - intros Hnone. unfold parse_content.
    destruct (finditer pattern content) as [|m ms] eqn:Hfound; [done|].
    assert (m ∈ finditer pattern content) as Hm by (rewrite Hfound; by left).
    apply finditer_start, match_pattern_parts in Hm
      as (w & rest & Hsplit & _ & Hfield).
    unfold search in Hfield. apply existsb_exists in Hfield as (j & _ & Hj).
    apply bool_decide_eq_true_1 in Hj.
    pose proof (search_none _ _ Hnone (start m + (length w + j))%nat) as Habs.
    rewrite <- drop_drop, Hsplit, <- drop_drop, drop_app_length in Habs.
    rewrite Habs in Hj. by destruct Hj.
Qed.

End Pattern.

(** The second block of [broken_record], at offset 44, is 23 characters
    long and nothing follows it but a brace and a comma. *)
Lemma block_without_rarity_excluded_witness :
  Forall (λ m, start m ≠ 44%nat) (@finditer basic_latin pattern broken_record)
  ∧ name <$> @parse_content basic_latin broken_record = [txt "A"].
Proof.
  split; [|vm_compute; reflexivity].
  apply Forall_forall.
  apply (proj1 (@block_without_rarity_excluded basic_latin broken_record
                  eq_refl eq_refl) 44%nat 23%nat).
  - vm_compute. reflexivity.
  - vm_compute. reflexivity.
Defined.

(* ===================================================================== *)
(** * The monad *)
(* ===================================================================== *)

Lemma bind_ok {A B} (m : IO A) (f : A -> IO B) w a w' :
  m w = (Ok a, w') -> (m ≫= f) w = f a w'.
Proof. unfold mbind, IO_bind. by intros ->. Qed.

Lemma bind_raise {A B} (m : IO A) (f : A -> IO B) w e w' :
  m w = (Raise e, w') -> (m ≫= f) w = (Raise e, w').
Proof. unfold mbind, IO_bind. by intros ->. Qed.

(* ===================================================================== *)
(** * The parser: order of the entries *)
(* ===================================================================== *)

Section ParserOrder.
Context `{Unicode}.

Lemma parse_miners_read path w w' content :
  read_text path w = (Ok content, w') ->
  parse_miners path w = (Ok (parse_content content), w').
Proof. intros Hread. unfold parse_miners. by rewrite (bind_ok _ _ _ _ _ Hread). Qed.


End ParserOrder.


(* ===================================================================== *)
(** * The renderer *)
(* ===================================================================== *)

(** ** The colours *)

(** Every colour that the script names is of the form [#rrggbb]. *)
Lemma literal_colors :
  Forall (λ color, is_Some (hexcolor color))
    ([txt "#1c1f24"; txt "#f2c9a0"; txt "#e3b58a"; txt "#2b2b2b";
      txt "#7a4b3a"; txt "#8b5a2b"]
     ++ (map_to_list RARITY_COLORS ≫= λ '(_, (base, accent)), [base; accent])).
Proof. apply (bool_decide_unpack _). vm_compute. exact I. Qed.

(** ** The palette *)

Lemma common_palette :
  RARITY_COLORS !! txt "Common" = Some (RARITY_COLORS !!! txt "Common").
Proof. vm_compute. reflexivity. Qed.

Lemma unknown_rarity rarity :
  rarity ∉ known_rarities -> RARITY_COLORS !! rarity = None.
Proof. intros Hnot. by apply not_elem_of_list_to_map_1. Qed.

Lemma icon_bitmap_palette r1 r2 seed :
  palette r1 = palette r2 -> icon_bitmap r1 seed = icon_bitmap r2 seed.
Proof.
  unfold palette, icon_bitmap. by intros ->.
Qed.

Lemma palette_unknown rarity :
  rarity ∉ known_rarities -> palette rarity = palette (txt "Common").
Proof.
  intros Hnot. unfold palette.
  by rewrite (unknown_rarity _ Hnot), common_palette.
Qed.

(** ** The seed *)

Lemma icon_bitmap_residue rarity seed :
  icon_bitmap rarity seed = icon_bitmap rarity (seed mod 6).
Proof.
  unfold icon_bitmap.
  rewrite (Z.mod_mod_divide seed 6 2) by (by exists 3).
  rewrite (Z.mod_mod_divide seed 6 3) by (by exists 2).
  reflexivity.
Qed.

Lemma residue_elem seed : seed mod 6 ∈ residues.
Proof.
  pose proof (Z.mod_pos_bound seed 6 ltac:(lia)) as Hb.
  unfold residues. rewrite !elem_of_cons.
  assert (seed mod 6 = 0 ∨ seed mod 6 = 1 ∨ seed mod 6 = 2 ∨ seed mod 6 = 3
          ∨ seed mod 6 = 4 ∨ seed mod 6 = 5) by lia.
  tauto.
Qed.

(** Every bitmap is one of the 36. *)
Lemma icon_bitmap_canon rarity :
  ∃ key, key ∈ known_rarities ∧ palette rarity = palette key
         ∧ ∀ seed, icon_bitmap rarity seed = icon_bitmap key (seed mod 6).
Proof.
  destruct (decide (rarity ∈ known_rarities)) as [Hin|Hnot].
  - exists rarity. split_and!; [done | done | apply icon_bitmap_residue].
  - exists (txt "Common"). split_and!.
    + by left.
    + by apply palette_unknown.
    + intros seed. rewrite icon_bitmap_residue.
      apply icon_bitmap_palette. by apply palette_unknown.
Qed.

(** ** The 36 bitmaps *)

Lemma icon_table :
  Forall (λ key,
    Forall (λ s,
      bitmap_facts key s (icon_bitmap key s)
        (icon_bitmap key (if s mod 3 =? 0 then 0 else 1))) residues)
    known_rarities.
Proof. apply (bool_decide_unpack _). vm_compute. exact I. Qed.

Lemma icon_facts rarity :
  ∃ key, palette rarity = palette key ∧ key ∈ known_rarities
    ∧ ∀ seed,
        icon_bitmap rarity seed = icon_bitmap key (seed mod 6)
        ∧ bitmap_facts key (seed mod 6) (icon_bitmap key (seed mod 6))
            (icon_bitmap key (if seed mod 3 =? 0 then 0 else 1)).
Proof.
  destruct (icon_bitmap_canon rarity) as (key & Hkey & Hpal & Heq).
  exists key. split; [exact Hpal|]. split; [exact Hkey|].
  intros seed. split; [exact (Heq seed)|].
  pose proof icon_table as Htable.
  rewrite Forall_forall in Htable. specialize (Htable key Hkey).
  rewrite Forall_forall in Htable. specialize (Htable _ (residue_elem seed)).
  by rewrite (Z.mod_mod_divide seed 6 3) in Htable by (by exists 2).
Qed.

(** ** Magnification *)

(** An image that has the rows, and the pixels in each, that its size says. *)
Lemma getpixel_inside img x y :
  (x < width img)%nat -> (y < height img)%nat ->
  length (rows img) = height img ->
  Forall (λ row, length row = width img) (rows img) ->
  is_Some (getpixel img (x, y)).
Proof.
  intros Hx Hy Hrows Hcols. unfold getpixel.
  rewrite (proj2 (Nat.ltb_lt _ _) Hx), (proj2 (Nat.ltb_lt _ _) Hy). cbn [andb].
  destruct (lookup_lt_is_Some_2 (rows img) y) as [row Hrow]; [lia|].
  rewrite Hrow. cbn. apply lookup_lt_is_Some.
  rewrite Forall_forall in Hcols.
  rewrite (Hcols row) by (by eapply list_elem_of_lookup_2). done.
Qed.

Lemma getpixel_resize_nearest img W H X Y :
  (X < W)%nat -> (Y < H)%nat ->
  getpixel (resize_nearest img (W, H)) (X, Y)
  = Some (default (0, 0, 0, 0)
            (getpixel img (((2 * X + 1) * width img) / (2 * W),
                           ((2 * Y + 1) * height img) / (2 * H))%nat)).
Proof.
  intros HX HY. unfold getpixel at 1, resize_nearest. cbn [width height rows].
  rewrite (proj2 (Nat.ltb_lt _ _) HX), (proj2 (Nat.ltb_lt _ _) HY). cbn [andb].
  rewrite list_lookup_fmap, lookup_seq_lt by done. cbn.
  by rewrite list_lookup_fmap, lookup_seq_lt by done.
Qed.

Lemma resize_nearest_size img W H :
  width (resize_nearest img (W, H)) = W
  ∧ height (resize_nearest img (W, H)) = H
  ∧ length (rows (resize_nearest img (W, H))) = H
  ∧ Forall (λ row, length row = W) (rows (resize_nearest img (W, H))).
Proof.
  unfold resize_nearest. cbn [width height rows].
  split_and!; [done | done | by rewrite length_fmap, length_seq |].
  apply Forall_fmap, Forall_forall. intros Y _. cbn.
  by rewrite length_fmap, length_seq.
Qed.

Lemma icon_bitmap_size rarity seed :
  width (icon_bitmap rarity seed) = GRID
  ∧ height (icon_bitmap rarity seed) = GRID
  ∧ length (rows (icon_bitmap rarity seed)) = GRID
  ∧ Forall (λ row, length row = GRID) (rows (icon_bitmap rarity seed)).
Proof.
  destruct (icon_facts rarity) as (key & _ & _ & Hfacts).
  destruct (Hfacts seed) as (-> & Hw & Hh & Hrows & Hcols & _).
  done.
Qed.

Lemma icon_bitmap_pixel rarity seed x y :
  (x < GRID)%nat -> (y < GRID)%nat ->
  is_Some (getpixel (icon_bitmap rarity seed) (x, y)).
Proof.
  intros Hx Hy.
  destruct (icon_bitmap_size rarity seed) as (Hw & Hh & Hrows & Hcols).
  apply getpixel_inside; by rewrite ?Hw, ?Hh.
Qed.

(** Each pixel of the icon is the pixel of the bitmap eight times closer
    to the origin. *)
Lemma draw_icon_pixel rarity seed X Y :
  (X < GRID * SCALE)%nat -> (Y < GRID * SCALE)%nat ->
  getpixel (draw_icon rarity seed) (X, Y)
  = getpixel (icon_bitmap rarity seed) (X / SCALE, Y / SCALE)%nat.
Proof.
  intros HX HY. unfold draw_icon.
  destruct (icon_bitmap_size rarity seed) as (Hw & Hh & _).
  rewrite getpixel_resize_nearest by done. rewrite Hw, Hh.
  change GRID with 16%nat in *. change SCALE with 8%nat in *.
  replace (((2 * X + 1) * 16) / (2 * (16 * 8)))%nat with (X / 8)%nat.
  2:{ pose proof (Nat.div_mod_eq X 8). pose proof (Nat.mod_upper_bound X 8).
      apply Nat.div_unique with (32 * (X mod 8) + 16)%nat; lia. }
  replace (((2 * Y + 1) * 16) / (2 * (16 * 8)))%nat with (Y / 8)%nat.
  2:{ pose proof (Nat.div_mod_eq Y 8). pose proof (Nat.mod_upper_bound Y 8).
      apply Nat.div_unique with (32 * (Y mod 8) + 16)%nat; lia. }
  destruct (icon_bitmap_pixel rarity seed (X / 8) (Y / 8)) as [c Hc];
    [| |by rewrite Hc].
  - apply Nat.Div0.div_lt_upper_bound. change GRID with 16%nat. lia.
  - apply Nat.Div0.div_lt_upper_bound. change GRID with 16%nat. lia.
Qed.

(** C5. The last step of [draw_icon] magnifies the 16x16 bitmap eight
    times by repeating pixels: the icon is 128 by 128, and the pixel
    [(x, y)] of the bitmap is the colour, unchanged, of each of the 64
    pixels [(8x + i, 8y + j)], [i, j < 8], of the icon. *)
Theorem draw_icon_magnifies rarity seed :
  let bitmap := icon_bitmap rarity seed in
  let icon := draw_icon rarity seed in
  icon = resize_nearest bitmap (GRID * SCALE, GRID * SCALE)%nat
  ∧ SCALE = 8%nat
  ∧ width bitmap = 16%nat ∧ height bitmap = 16%nat
  ∧ width icon = 128%nat ∧ height icon = 128%nat
  ∧ length (rows icon) = 128%nat
  ∧ Forall (λ row, length row = 128%nat) (rows icon)
  ∧ ∀ x y i j : nat, (x < 16)%nat -> (y < 16)%nat -> (i < 8)%nat -> (j < 8)%nat ->
      ∃ color, getpixel bitmap (x, y) = Some color
               ∧ getpixel icon (8 * x + i, 8 * y + j)%nat = Some color.
Proof.
  intros bitmap icon. subst bitmap icon.
  destruct (icon_bitmap_size rarity seed) as (Hw & Hh & _).
  destruct (resize_nearest_size (icon_bitmap rarity seed)
              (GRID * SCALE) (GRID * SCALE)) as (HW & HH & HR & HC).
  split_and!;
    [done | done | done | done | exact HW | exact HH | exact HR | exact HC |].
  intros x y i j Hx Hy Hi Hj.
  destruct (icon_bitmap_pixel rarity seed x y Hx Hy) as [c Hc].
  exists c. split; [done|].
  rewrite draw_icon_pixel
    by (change GRID with 16%nat; change SCALE with 8%nat; lia).
  change SCALE with 8%nat.
  replace ((8 * x + i) / 8)%nat with x
    by (apply Nat.div_unique with i; lia).
  replace ((8 * y + j) / 8)%nat with y
    by (apply Nat.div_unique with j; lia).
  exact Hc.
Qed.

Lemma draw_icon_magnifies_witness :
  ∃ color,
    getpixel (icon_bitmap (txt "Epic") 4) (5, 4)%nat = Some color
    ∧ getpixel (draw_icon (txt "Epic") 4) (8 * 5 + 7, 8 * 4 + 0)%nat = Some color.
Proof.
  apply (draw_icon_magnifies (txt "Epic") 4); lia.
Defined.

(** ** Rarity and seed *)

(** C2. A rarity that is not one of the six known ones is drawn with the
    colours of "Common": for every seed the icon is, pixel for pixel, the
    icon of "Common"; so it is for the rarity "Nonexistent". *)
Theorem unknown_rarity_draws_common :
  (∀ rarity seed, rarity ∉ known_rarities ->
     draw_icon rarity seed = draw_icon (txt "Common") seed)
  ∧ (∀ seed, draw_icon (txt "Nonexistent") seed = draw_icon (txt "Common") seed).
Proof.
  assert (∀ rarity seed, rarity ∉ known_rarities ->
            draw_icon rarity seed = draw_icon (txt "Common") seed) as Hgen.
  { intros rarity seed Hnot. unfold draw_icon. f_equal.
    apply icon_bitmap_palette. by apply palette_unknown. }
  split; [exact Hgen|].
  intros seed. apply Hgen.
  apply (bool_decide_unpack _). vm_compute. exact I.
Qed.

Lemma unknown_rarity_draws_common_witness :
  draw_icon (txt "Shiny") 4 = draw_icon (txt "Common") 4.
Proof.
  apply (proj1 unknown_rarity_draws_common (txt "Shiny") 4).
  apply (bool_decide_unpack _). vm_compute. exact I.
Defined.

(** C9. The seed counts only modulo 6: the icon of [seed + 6] is the icon
    of [seed], the skin tone depending on the seed modulo 2 and the stripe
    on the seed modulo 3 and nothing else depending on the seed. *)
Theorem draw_icon_period_6 rarity seed :
  draw_icon rarity seed = draw_icon rarity (seed + 6)
  ∧ icon_bitmap rarity seed = icon_bitmap rarity (seed mod 6)
  ∧ ∀ seed', seed mod 2 = seed' mod 2 -> seed mod 3 = seed' mod 3 ->
      draw_icon rarity seed = draw_icon rarity seed'.
Proof.
  assert (∀ seed', seed mod 2 = seed' mod 2 -> seed mod 3 = seed' mod 3 ->
            draw_icon rarity seed = draw_icon rarity seed') as Hgen.
  { intros seed' H2 H3. unfold draw_icon, icon_bitmap. by rewrite H2, H3. }
  split_and!; [|apply icon_bitmap_residue|exact Hgen].
  apply Hgen.
  - replace (seed + 6) with (seed + 3 * 2) by lia. by rewrite Z.mod_add.
  - replace (seed + 6) with (seed + 2 * 3) by lia. by rewrite Z.mod_add.
Qed.

Lemma draw_icon_period_6_witness :
  draw_icon (txt "Rare") 2 = draw_icon (txt "Rare") (-4).
Proof.
  apply (proj2 (proj2 (draw_icon_period_6 (txt "Rare") 2))); reflexivity.
Defined.

(** ** The stripe *)

Lemma stripe_row rarity seed :
  Forall (λ x, getpixel (icon_bitmap rarity seed) (x, 4%nat)
               = Some (ink (palette rarity).2)) (range 5 11)
  ↔ seed mod 3 = 0.
Proof.
  destruct (icon_facts rarity) as (key & -> & _ & Hfacts).
  destruct (Hfacts seed) as (-> & _ & _ & _ & _ & Hstripe & _).
  by rewrite (Z.mod_mod_divide seed 6 3) in Hstripe by (by exists 2).
Qed.

Lemma has_stripe_bitmap rarity seed :
  has_stripe rarity 1 (icon_bitmap rarity seed) ↔ seed mod 3 = 0.
Proof.
  rewrite <- stripe_row, Forall_forall. unfold has_stripe, range.
  split.
  - intros Hs x Hx%elem_of_seq. apply Hs; lia.
  - intros Hs X Y HX HY. replace Y with 4%nat by lia.
    apply Hs, elem_of_seq. lia.
Qed.

Lemma has_stripe_icon rarity seed :
  has_stripe rarity SCALE (draw_icon rarity seed) ↔ seed mod 3 = 0.
Proof.
  rewrite <- has_stripe_bitmap. unfold has_stripe.
  change SCALE with 8%nat. split.
  - intros Hs x y Hx Hy.
    specialize (Hs (8 * x)%nat (8 * y)%nat ltac:(lia) ltac:(lia)).
    rewrite draw_icon_pixel in Hs
      by (change GRID with 16%nat; change SCALE with 8%nat; lia).
    change SCALE with 8%nat in Hs.
    by rewrite !(Nat.mul_comm 8), !Nat.div_mul in Hs by lia.
  - intros Hs X Y HX HY.
    rewrite draw_icon_pixel
      by (change GRID with 16%nat; change SCALE with 8%nat; lia).
    change SCALE with 8%nat.
    pose proof (Nat.div_mod_eq X 8). pose proof (Nat.mod_upper_bound X 8).
    pose proof (Nat.div_mod_eq Y 8). pose proof (Nat.mod_upper_bound Y 8).
    apply Hs; lia.
Qed.

(** C3. Whatever the rarity, the icon has the accent stripe (the pixels 5
    to 10 of row 4 of the grid in the accent colour) exactly when 3 divides
    the seed, on the 16x16 bitmap and on the icon; the icons of the seeds
    0, 3, 6 have it and those of 1, 2, 4, 5 do not. *)
Theorem stripe_iff_seed_divisible_by_3 rarity :
  (∀ seed, has_stripe rarity 1 (icon_bitmap rarity seed) ↔ seed mod 3 = 0)
  ∧ (∀ seed, has_stripe rarity SCALE (draw_icon rarity seed) ↔ seed mod 3 = 0)
  ∧ Forall (λ seed, has_stripe rarity SCALE (draw_icon rarity seed)) [0; 3; 6]
  ∧ Forall (λ seed, ¬ has_stripe rarity SCALE (draw_icon rarity seed))
      [1; 2; 4; 5].
Proof.
  split_and!.
  - intros seed. apply has_stripe_bitmap.
  - intros seed. apply has_stripe_icon.
  - repeat constructor; by apply has_stripe_icon.
  - repeat constructor; by rewrite has_stripe_icon.
Qed.

Lemma stripe_iff_seed_divisible_by_3_witness :
  has_stripe (txt "Legendary") SCALE (draw_icon (txt "Legendary") 9)
  ∧ ¬ has_stripe (txt "Legendary") SCALE (draw_icon (txt "Legendary") 10).
Proof.
  split.
  - apply (proj1 (proj2 (stripe_iff_seed_divisible_by_3 (txt "Legendary")))).
    reflexivity.
  - intros Hs.
    apply (proj1 (proj2 (stripe_iff_seed_divisible_by_3 (txt "Legendary")))) in Hs.
    discriminate Hs.
Defined.

(** ** The face *)

Lemma grid_pixels_elem x y :
  (x < GRID)%nat -> (y < GRID)%nat -> (x, y) ∈ grid_pixels.
Proof.
  intros Hx Hy. unfold grid_pixels.
  apply list_elem_of_bind. exists y. split; [|apply elem_of_seq; lia].
  apply list_elem_of_bind. exists x. split; [by left|apply elem_of_seq; lia].
Qed.

Lemma skin_bitmap rarity s1 s2 x y :
  s1 mod 2 = 0 -> s2 mod 2 = 1 -> (x < GRID)%nat -> (y < GRID)%nat ->
  let a := getpixel (icon_bitmap rarity s1) (x, y) in
  let b := getpixel (icon_bitmap rarity s2) (x, y) in
  (shows_skin (x, y) -> a = Some tone_even ∧ b = Some tone_odd)
  ∧ (¬ shows_skin (x, y) -> (s1 mod 3 = 0 ↔ s2 mod 3 = 0) -> a = b).
Proof.
  intros Heven Hodd Hx Hy a b. subst a b.
  destruct (icon_facts rarity) as (key & _ & _ & Hfacts).
  destruct (Hfacts s1) as (-> & _ & _ & _ & _ & _ & Hp1).
  destruct (Hfacts s2) as (-> & _ & _ & _ & _ & _ & Hp2).
  rewrite Forall_forall in Hp1, Hp2.
  specialize (Hp1 _ (grid_pixels_elem x y Hx Hy)).
  specialize (Hp2 _ (grid_pixels_elem x y Hx Hy)).
  rewrite (Z.mod_mod_divide s1 6 2), Heven in Hp1 by (by exists 3).
  rewrite (Z.mod_mod_divide s2 6 2), Hodd in Hp2 by (by exists 3).
  split.
  - intros Hskin. by rewrite bool_decide_eq_true_2 in Hp1, Hp2 by done.
  - intros Hskin Hstripe.
    rewrite bool_decide_eq_false_2 in Hp1, Hp2 by done.
    rewrite Hp1, Hp2. clear Hp1 Hp2 Hfacts.
    destruct (Z.eqb_spec (s1 mod 3) 0) as [H1|H1],
             (Z.eqb_spec (s2 mod 3) 0) as [H2|H2].
    + reflexivity.
    + exfalso. apply H2, Hstripe, H1.
    + exfalso. apply H1, Hstripe, H2.
    + reflexivity.
Qed.

(** C4. Of two seeds, one even and one odd, the icons differ on the face
    as the skin-tone rule says: where the face shows skin, the icon of the
    even seed has the one tone and the icon of the odd seed the other.
    Every other pixel, so every pixel outside the face, is the same in
    both, unless one seed has the stripe and the other has not. *)
Theorem skin_follows_parity rarity s1 s2 :
  s1 mod 2 = 0 -> s2 mod 2 = 1 ->
  tone_even ≠ tone_odd
  ∧ ∀ X Y : nat, (X < 128)%nat -> (Y < 128)%nat ->
      let xy := (X / SCALE, Y / SCALE)%nat in
      let a := getpixel (draw_icon rarity s1) (X, Y) in
      let b := getpixel (draw_icon rarity s2) (X, Y) in
      (shows_skin xy -> a = Some tone_even ∧ b = Some tone_odd)
      ∧ (¬ shows_skin xy -> (s1 mod 3 = 0 ↔ s2 mod 3 = 0) -> a = b)
      ∧ (¬ in_face xy -> ¬ shows_skin xy).
Proof.
  intros Heven Hodd. split; [by vm_compute|].
  intros X Y HX HY xy a b. subst xy a b.
  rewrite !draw_icon_pixel by assumption.
  assert (X / SCALE < GRID)%nat as Hx
    by (apply Nat.Div0.div_lt_upper_bound; exact HX).
  assert (Y / SCALE < GRID)%nat as Hy
    by (apply Nat.Div0.div_lt_upper_bound; exact HY).
  destruct (skin_bitmap rarity s1 s2 _ _ Heven Hodd Hx Hy) as [Hskin Hrest].
  split; [exact Hskin|]. split; [exact Hrest|].
  intros Hout [Hin _]. exact (Hout Hin).
Qed.

Lemma skin_follows_parity_witness :
  (* a pixel of the forehead, and a pixel of the frame *)
  (getpixel (draw_icon (txt "Mythic") 2) (40, 70)%nat = Some tone_even
   ∧ getpixel (draw_icon (txt "Mythic") 5) (40, 70)%nat = Some tone_odd)
  ∧ getpixel (draw_icon (txt "Mythic") 2) (3, 3)%nat
    = getpixel (draw_icon (txt "Mythic") 5) (3, 3)%nat.
Proof.
  pose proof (skin_follows_parity (txt "Mythic") 2 5 eq_refl eq_refl) as [_ Hpx].
  split.
  - apply (Hpx 40 70)%nat; [lia | lia |].
    apply (bool_decide_unpack _). vm_compute. exact I.
  - apply (Hpx 3 3)%nat; [lia | lia | | split; discriminate].
    apply (bool_decide_unpack _). vm_compute. exact I.
Defined.

(* ===================================================================== *)
(** * A run of the script *)
(* ===================================================================== *)

Section Run.
Context `{Unicode, Install}.

Lemma main_steps :
  main = (miners ← parse_miners DATABASE_PATH; generate miners).
Proof. reflexivity. Qed.

(** ** When the system refuses nothing *)

Lemma quiet_spend n w : quiet w -> quiet (spend n w).
Proof. unfold quiet, spend. cbn [faults]. apply Forall_drop. Qed.

Lemma spend_spend n m w : spend n (spend m w) = spend (m + n) w.
Proof. unfold spend. cbn [files stdout faults]. by rewrite drop_drop. Qed.

Lemma syscall_quiet w : quiet w -> syscall w = (Ok (), spend 1 w).
Proof.
  unfold quiet, syscall, spend. destruct w as [fs out [|refused rest]]; cbn.
  - done.
  - intros Hq. apply Forall_cons in Hq as [-> _]. by rewrite drop_0.
Qed.

Lemma read_text_quiet path w content :
  quiet w -> files w !! path = Some (TextFile content) ->
  read_text path w = (Ok content, spend 1 w).
Proof.
  intros Hq Hfile. unfold read_text.
  rewrite (bind_ok _ _ _ _ _ (syscall_quiet w Hq)).
  unfold fetch. cbn [spend files]. by rewrite Hfile.
Qed.

Lemma store_after_syscall_quiet path f w :
  quiet w ->
  (syscall;; store path f) w
  = (Ok (), {| files := <[path := f]> (files w); stdout := stdout w;
               faults := drop 1 (faults w) |}).
Proof.
  intros Hq. by rewrite (bind_ok _ _ _ _ _ (syscall_quiet w Hq)).
Qed.

Lemma write_icon_quiet w miner :
  quiet w -> write_icon miner w = (Ok (), icon_written w miner).
Proof.
  intros Hq. unfold write_icon, save.
  by rewrite (bind_ok _ _ _ _ _ (store_after_syscall_quiet _ _ w Hq)).
Qed.

Lemma quiet_icon_written w miner : quiet w -> quiet (icon_written w miner).
Proof. unfold quiet, icon_written. cbn [faults]. apply Forall_drop. Qed.

Lemma quiet_icons_written miners w :
  quiet w -> quiet (foldl icon_written w miners).
Proof.
  revert w. induction miners as [|m miners IH]; intros w Hq; [done|].
  cbn [foldl]. by apply IH, quiet_icon_written.
Qed.

Lemma for_io_write_icon_quiet miners w :
  quiet w ->
  for_io miners write_icon w = (Ok (), foldl icon_written w miners).
Proof.
  revert w. induction miners as [|m miners IH]; intros w Hq; [done|].
  cbn [for_io foldl].
  rewrite (bind_ok _ _ _ _ _ (write_icon_quiet w m Hq)).
  by apply IH, quiet_icon_written.
Qed.

Lemma generate_quiet miners w :
  quiet w ->
  generate miners w =
    (let w1 := foldl icon_written (spend 1 w) miners in
     (Ok (), {| files := <[manifest_path :=
                            TextFile (json_dumps (manifest_of (length miners)))]>
                           (files w1);
                stdout := stdout w1;
                faults := drop 1 (faults w1) |})).
Proof.
  intros Hq. unfold generate, mkdir.
  rewrite (bind_ok _ _ _ _ _ (syscall_quiet w Hq)).
  rewrite (bind_ok _ _ _ _ _
             (for_io_write_icon_quiet miners _ (quiet_spend 1 w Hq))).
  unfold write_text.
  by rewrite store_after_syscall_quiet
    by apply quiet_icons_written, quiet_spend, Hq.
Qed.

Lemma main_quiet w content :
  quiet w -> files w !! DATABASE_PATH = Some (TextFile content) ->
  main w = generate (parse_content content) (spend 1 w).
Proof.
  intros Hq Hfile. rewrite main_steps.
  erewrite bind_ok; [reflexivity|].
  by apply parse_miners_read, read_text_quiet.
Qed.

(** ** When nothing matches *)

Lemma parse_content_none content :
  search pattern content = false -> parse_content content = [].
Proof.
  intros Hs. unfold parse_content, finditer.
  by rewrite scan_none by by apply search_none.
Qed.

(** C8. When the pattern matches nowhere in the text, [parse_miners]
    returns the empty list, it does not raise; the run then writes no
    image and prints nothing, and it writes the manifest, with the count
    0.  (The system is taken to refuse nothing.) *)
Theorem no_match_empty_manifest w content :
  files w !! DATABASE_PATH = Some (TextFile content) ->
  quiet w ->
  search pattern content = false ->
  (∃ w1, parse_miners DATABASE_PATH w = (Ok [], w1))
  ∧ ∃ w', main w = (Ok (), w')
      ∧ files w' =
          <[manifest_path :=
              TextFile (json_dumps [ (txt "size", JInt 128);
                                     (txt "count", JInt 0);
                                     (txt "path", JStr (txt "assets/ui/miners")) ])]>
            (files w)
      ∧ stdout w' = stdout w.
Proof.
  intros Hfile Hq Hnone. split.
  - exists (spend 1 w).
    rewrite (parse_miners_read _ _ _ _ (read_text_quiet _ _ _ Hq Hfile)).
    by rewrite parse_content_none.
  - rewrite (main_quiet _ _ Hq Hfile), parse_content_none by done.
    rewrite generate_quiet by by apply quiet_spend.
    eexists. split; [reflexivity|]. done.
Qed.

End Run.

Lemma no_match_empty_manifest_witness :
  ∃ w', @main basic_latin repo
          (world_with (@DATABASE_PATH repo) no_records [false; false]) = (Ok (), w')
    ∧ files w' !! (@manifest_path repo) =
        Some (TextFile (txt "{
  " ++ dquote ++ txt "size" ++ dquote ++ txt ": 128,
  " ++ dquote ++ txt "count" ++ dquote ++ txt ": 0,
  " ++ dquote ++ txt "path" ++ dquote ++ txt ": " ++ dquote
          ++ txt "assets/ui/miners" ++ dquote ++ txt "
}")).
Proof.
  destruct (@no_match_empty_manifest basic_latin repo
              (world_with (@DATABASE_PATH repo) no_records [false; false])
              no_records)
    as (_ & w' & Hmain & Hfiles & _).
  - apply lookup_singleton_eq.
  - repeat constructor.
  - vm_compute. reflexivity.
  - exists w'. split; [exact Hmain|].
    rewrite Hfiles. apply lookup_insert_eq.
Defined.

(* ===================================================================== *)
(** * The manifest comes last *)
(* ===================================================================== *)

Section Keeps.
Context (path : Path).

Lemma keeps_ret {A} (a : A) : keeps path (mret a).
Proof. intros w r w' [= <- <-]. done. Qed.

Lemma keeps_bind {A B} (m : IO A) (f : A -> IO B) :
  keeps path m -> (∀ a, keeps path (f a)) -> keeps path (m ≫= f).
Proof.
  intros Hm Hf w r w'. unfold mbind, IO_bind.
  destruct (m w) as [[a|e] w1] eqn:Hmw.
  - intros Hfa. rewrite (Hf _ _ _ _ Hfa). by eapply Hm.
  - intros [= <- <-]. by eapply Hm.
Qed.

Lemma keeps_syscall : keeps path syscall.
Proof.
  intros w r w'. unfold syscall.
  destruct (faults w) as [|refused rest]; intros [= <- <-]; done.
Qed.

Lemma keeps_fetch p : keeps path (fetch p).
Proof.
  intros w r w'. unfold fetch.
  destruct (files w !! p) as [[content|img]|]; intros [= <- <-]; done.
Qed.

Lemma keeps_print line : keeps path (print line).
Proof. intros w r w' [= <- <-]. done. Qed.

Lemma keeps_store p f : p ≠ path -> keeps path (store p f).
Proof.
  intros Hne w r w' [= <- <-]. cbn [files]. by apply lookup_insert_ne.
Qed.

Lemma keeps_for_io {B} (l : list B) (body : B -> IO ()) :
  (∀ x, keeps path (body x)) -> keeps path (for_io l body).
Proof.
  intros Hbody. induction l as [|x l IH]; cbn [for_io].
  - apply keeps_ret.
  - apply keeps_bind; [apply Hbody | intros _; apply IH].
Qed.

End Keeps.

(** A write that is refused changes no file. *)
Lemma write_text_raise path content w e w' :
  write_text path content w = (Raise e, w') -> files w' = files w.
Proof.
  unfold write_text, mbind, IO_bind, syscall.
  destruct (faults w) as [|[|] rest]; cbn; intros [= <- <-]; done.
Qed.

Section Manifest.
Context `{Unicode, Install}.

Lemma icon_path_manifest tier : icon_path tier ≠ manifest_path.
Proof.
  unfold icon_path, manifest_path, joinpath.
  intros Heq%app_inv_head. apply (f_equal (λ l, l !! 0%nat)) in Heq.
  discriminate Heq.
Qed.

Lemma keeps_write_icon miner : keeps manifest_path (write_icon miner).
Proof.
  unfold write_icon, save.
  apply keeps_bind; [|intros _; apply keeps_print].
  apply keeps_bind; [apply keeps_syscall|].
  intros _. apply keeps_store, icon_path_manifest.
Qed.

Lemma keeps_parse_miners path p : keeps path (parse_miners p).
Proof.
  unfold parse_miners, read_text.
  apply keeps_bind; [|intros content; apply keeps_ret].
  apply keeps_bind; [apply keeps_syscall | intros _; apply keeps_fetch].
Qed.

(** A run that raises, wherever it does, has not touched the manifest. *)
Lemma main_raise_manifest w e w' :
  main w = (Raise e, w') ->
  files w' !! manifest_path = files w !! manifest_path.
Proof.
  rewrite main_steps. unfold mbind at 1, IO_bind at 1.
  destruct (parse_miners DATABASE_PATH w) as [[miners|e0] w1] eqn:Hparse.
  2:{ intros [= <- <-]. by eapply keeps_parse_miners. }
  rewrite <- (keeps_parse_miners manifest_path _ _ _ _ Hparse).
  unfold generate, mkdir. unfold mbind at 1, IO_bind at 1.
  destruct (syscall w1) as [[[]|e1] w2] eqn:Hmkdir.
  2:{ intros [= <- <-]. by eapply keeps_syscall. }
  rewrite <- (keeps_syscall manifest_path _ _ _ Hmkdir).
  unfold mbind at 1, IO_bind at 1.
  destruct (for_io miners write_icon w2) as [[[]|e2] w3] eqn:Hloop.
  2:{ intros [= <- <-].
      by eapply (keeps_for_io manifest_path), Hloop; apply keeps_write_icon. }
  rewrite <- (keeps_for_io manifest_path _ _ keeps_write_icon _ _ _ Hloop).
  intros Hwrite. by rewrite (write_text_raise _ _ _ _ _ Hwrite).
Qed.

End Manifest.

Section TwoRecords.
Context `{Unicode, Install}.

Lemma sorted_two_records found :
  found ≡ₚ [miner_A; miner_B] -> sorted tier found = [miner_A; miner_B].
Proof.
  intros Hperm. symmetry in Hperm.
  apply Permutation_length_2_inv in Hperm as [-> | ->]; reflexivity.
Qed.

(** C6. When the matches in the data file are the two entries (tier 1,
    "A", "Common") and (tier 7, "B", "Mythic"), a run that the system does
    not disturb writes the two images [tier-1.png] and [tier-7.png], each
    128 by 128, then the manifest with the size 128 and the count 2, and no
    other file.  A run that raises, wherever it fails, so also in the
    writing of an icon, leaves the manifest as it was before the run: none
    if there was none. *)
Theorem two_records_run w content :
  files w !! DATABASE_PATH = Some (TextFile content) ->
  miner_of_match <$> finditer pattern content ≡ₚ [miner_A; miner_B] ->
  (quiet w ->
     let icon1 := draw_icon (txt "Common") 1 in
     let icon7 := draw_icon (txt "Mythic") 7 in
     ∃ w', main w = (Ok (), w')
       ∧ files w' =
           <[OUTPUT_DIR </> txt "manifest.json" :=
               TextFile (json_dumps [ (txt "size", JInt 128);
                                      (txt "count", JInt 2);
                                      (txt "path", JStr (txt "assets/ui/miners")) ])]>
             (<[OUTPUT_DIR </> txt "tier-7.png" := ImageFile icon7]>
                (<[OUTPUT_DIR </> txt "tier-1.png" := ImageFile icon1]>
                   (files w)))
       ∧ (width icon1, height icon1) = (128, 128)%nat
       ∧ (width icon7, height icon7) = (128, 128)%nat)
  ∧ (∀ e w', main w = (Raise e, w') ->
       files w' !! (OUTPUT_DIR </> txt "manifest.json")
       = files w !! (OUTPUT_DIR </> txt "manifest.json")).
Proof.
  intros Hfile Hfound. split; [|intros e w'; apply main_raise_manifest].
  intros Hq icon1 icon7.
  rewrite (main_quiet _ _ Hq Hfile). unfold parse_content.
  rewrite (sorted_two_records _ Hfound).
  rewrite generate_quiet by by apply quiet_spend.
  eexists. split; [reflexivity|].
  split; [reflexivity|].
  split; reflexivity.
Qed.

End TwoRecords.

(** The run of the two entries when nothing is refused, and when the
    second image is. *)
Lemma two_records_run_witness :
  (∃ w', @main basic_latin repo
           (world_with (@DATABASE_PATH repo) two_records []) = (Ok (), w')
      ∧ dom (files w') =
          {[ @DATABASE_PATH repo;
             @OUTPUT_DIR repo </> txt "tier-1.png";
             @OUTPUT_DIR repo </> txt "tier-7.png";
             @OUTPUT_DIR repo </> txt "manifest.json" ]})
  ∧ (∃ w', @main basic_latin repo
               (world_with (@DATABASE_PATH repo) two_records
                  [false; false; false; true]) = (Raise OSError, w')
       ∧ files w' !! (@OUTPUT_DIR repo </> txt "manifest.json") = None).
Proof.
  assert (@miner_of_match basic_latin <$> @finditer basic_latin pattern two_records
          ≡ₚ [miner_A; miner_B]) as Hfound by (vm_compute; reflexivity).
  pose proof (λ faults,
    @two_records_run basic_latin repo
      (world_with (@DATABASE_PATH repo) two_records faults) two_records
      (lookup_singleton_eq _ _) Hfound) as Hrun.
  split.
  - destruct (Hrun []) as [Hok _].
    destruct (Hok ltac:(constructor)) as (w' & Hmain & Hfiles & _).
    exists w'. split; [exact Hmain|].
    rewrite Hfiles, !dom_insert_L. cbn [world_with files].
    rewrite dom_singleton_L. set_solver.
  - destruct (Hrun [false; false; false; true]) as [_ Hraise].
    assert (∃ w', @main basic_latin repo
                    (world_with (@DATABASE_PATH repo) two_records
                       [false; false; false; true]) = (Raise OSError, w'))
      as [w' Hmain] by (eexists; reflexivity).
    exists w'. split; [exact Hmain|].
    rewrite (Hraise _ _ Hmain). reflexivity.
Defined.

(* ===================================================================== *)
(** * The names are not used *)
(* ===================================================================== *)

Section Blind.
Context (path : Path).







End Blind.

Section Names.
Context `{Unicode, Install}.





Lemma input_is_no_output :
  manifest_path ≠ DATABASE_PATH ∧ ∀ tier, icon_path tier ≠ DATABASE_PATH.
Proof.
  split; [|intros tier];
    unfold icon_path, manifest_path, DATABASE_PATH, OUTPUT_DIR, joinpath;
    rewrite <- !(assoc_L (++)); intros Heq%app_inv_head; discriminate Heq.
Qed.



End Names.


(* ===================================================================== *)
(** * More about the engine and the pattern *)
(* ===================================================================== *)

Section Matches.
Context `{Unicode}.

(** ** The matches of [finditer], one after the other *)

Lemma match_length r s len g :
  match_ r s = Some (len, g) ->
  ∃ w rest, s = w ++ rest ∧ lang r w ∧ len = length w.
Proof.
  unfold match_. intros Hexec.
  apply exec_sound in Hexec as (w & rest & g' & -> & Hw & [= <- _]).
  exists w, rest. split_and!; [done | done |]. rewrite length_app. lia.
Qed.

Lemma scan_match r pos skip s m :
  m ∈ scan r pos skip s ->
  (pos + skip ≤ start m)%nat
  ∧ match_ r (drop (start m - pos) s) = Some ((stop m - start m)%nat, captures m).
Proof.
  revert pos skip. induction s as [|c s IH]; intros pos skip; cbn [scan].
  - destruct skip; [|by intros ?%elem_of_nil].
    destruct (match_ r []) as [[len g]|] eqn:Hm; [|by intros ?%elem_of_nil].
    intros ->%list_elem_of_singleton. cbn [start stop captures].
    rewrite Nat.sub_diag, drop_0, Hm. split; [lia|]. do 3 f_equal. lia.
  - assert (∀ skip', m ∈ scan r (S pos) skip' s ->
              (pos + S skip' ≤ start m)%nat
              ∧ match_ r (drop (start m - pos) (c :: s))
                = Some ((stop m - start m)%nat, captures m)) as Hnext.
    { intros skip' [Hle Hm]%IH. split; [lia|].
      by replace (start m - pos)%nat with (S (start m - S pos)) by lia. }
    destruct skip as [|skip].
    + destruct (match_ r (c :: s)) as [[len g]|] eqn:Hm.
      * intros [->|Hin]%elem_of_cons.
        -- cbn [start stop captures]. rewrite Nat.sub_diag, drop_0, Hm.
           split; [lia|]. do 3 f_equal. lia.
        -- destruct (Hnext _ Hin). split; [lia | done].
      * intros Hin. destruct (Hnext _ Hin). split; [lia | done].
    + intros Hin. destruct (Hnext _ Hin). split; [lia | done].
Qed.

Lemma finditer_match r s m :
  m ∈ finditer r s ->
  match_ r (drop (start m) s) = Some ((stop m - start m)%nat, captures m).
Proof.
  intros [_ Hm]%scan_match. by rewrite Nat.sub_0_r in Hm.
Qed.

Lemma scan_spans r pos skip s :
  Forall (λ m, (pos + skip ≤ start m ∧ start m ≤ stop m
                ∧ stop m ≤ pos + length s)%nat) (scan r pos skip s)
  ∧ StronglySorted (λ m1 m2, (start m1 < start m2 ∧ stop m1 ≤ start m2)%nat)
      (scan r pos skip s).
Proof.
  revert pos skip. induction s as [|c s IH]; intros pos skip; cbn [scan].
  - destruct skip; [|split; constructor].
    destruct (match_ r []) as [[len g]|] eqn:Hm; [|split; constructor].
    apply match_length in Hm as (w & rest & Hs & _ & ->).
    symmetry in Hs. apply app_eq_nil in Hs as [-> ->].
    split; repeat constructor; cbn; lia.
  - assert (∀ skip',
      Forall (λ m, (pos + S skip' ≤ start m ∧ start m ≤ stop m
                    ∧ stop m ≤ pos + length (c :: s))%nat)
        (scan r (S pos) skip' s)) as Hnext.
    { intros skip'. destruct (IH (S pos) skip') as [Hall _].
      eapply Forall_impl; [exact Hall|]. cbn. intros m ?. lia. }
    destruct skip as [|skip]; [|split; [apply Hnext | apply IH]].
    destruct (match_ r (c :: s)) as [[len g]|] eqn:Hm.
    2:{ split; [|apply IH]. eapply Forall_impl; [apply (Hnext 0%nat)|].
        cbn. intros m ?. lia. }
    apply match_length in Hm as (w & rest & Hs & _ & ->).
    assert (length w ≤ length (c :: s))%nat
      by (rewrite Hs, length_app; lia).
    split.
    + constructor; [cbn in *; lia|].
      eapply Forall_impl; [apply (Hnext (pred (length w)))|].
      cbn. intros m ?. lia.
    + constructor; [apply IH|].
      eapply Forall_impl; [apply (Hnext (pred (length w)))|].
      cbn. intros m ?. lia.
Qed.

(** X1. The matches of [finditer] come in the order of the text and do
    not overlap: each lies within the text and ends no later than the next
    one begins; a match of the script's pattern is at least 5 characters
    long. *)
Theorem finditer_disjoint r content :
  StronglySorted (λ m1 m2, (start m1 < start m2 ∧ stop m1 ≤ start m2)%nat)
    (finditer r content)
  ∧ Forall (λ m, (start m ≤ stop m ≤ length content)%nat) (finditer r content)
  ∧ Forall (λ m, (start m + 5 ≤ stop m)%nat) (finditer pattern content).
Proof.
  destruct (scan_spans r 0 0 content) as [Hall Hsorted].
  split_and!; [exact Hsorted | |].
  - eapply Forall_impl; [exact Hall|]. cbn. intros m ?. lia.
  - apply Forall_forall. intros m Hm.
    pose proof (finditer_match _ _ _ Hm) as Hmatch.
    apply match_pattern_nonempty in Hmatch. lia.
Qed.

Lemma scan_complete r pos skip s i :
  (skip ≤ i ≤ length s)%nat ->
  is_Some (match_ r (drop i s)) ->
  ∃ m, m ∈ scan r pos skip s
       ∧ (start m = pos + i ∨ start m < pos + i < stop m)%nat.
Proof.
  revert pos skip i. induction s as [|c s IH]; intros pos skip i Hi Hmatch;
    cbn [scan].
  - cbn in Hi. assert (i = 0%nat) as -> by lia. assert (skip = 0%nat) as -> by lia.
    rewrite drop_0 in Hmatch. destruct Hmatch as [[len g] ->].
    eexists. split; [by left|]. cbn. lia.
  - assert (∀ skip' i', i = S i' -> (skip' ≤ i')%nat ->
              ∃ m, m ∈ scan r (S pos) skip' s
                   ∧ (start m = pos + i ∨ start m < pos + i < stop m)%nat)
      as Hnext.
    { intros skip' i' -> Hskip. cbn in Hi, Hmatch.
      destruct (IH (S pos) skip' i' ltac:(lia) Hmatch) as (m & Hin & Hm).
      exists m. split; [done | lia]. }
    destruct skip as [|skip].
    + destruct (match_ r (c :: s)) as [[len g]|] eqn:Hhere.
      * destruct (decide (i < Nat.max 1 len)%nat) as [Hin|Hout].
        -- eexists. split; [by left|]. cbn. destruct i; lia.
        -- destruct i as [|i']; [lia|].
           destruct (Hnext (pred len) i' eq_refl ltac:(lia)) as (m & Hm & ?).
           exists m. split; [by right | done].
      * destruct i as [|i'].
        { rewrite drop_0, Hhere in Hmatch. by destruct Hmatch. }
        apply (Hnext 0%nat i' eq_refl). lia.
    + destruct i as [|i']; [lia|]. apply (Hnext skip i' eq_refl). lia.
Qed.

(** X2. [finditer] misses no match: wherever in the text the pattern
    matches, a match of [finditer] begins there, or one that began earlier
    runs over that place. *)
Theorem finditer_leftmost r content i :
  (i ≤ length content)%nat ->
  is_Some (match_ r (drop i content)) ->
  ∃ m, m ∈ finditer r content ∧ (start m = i ∨ (start m < i < stop m)%nat).
Proof.
  intros Hi Hmatch.
  destruct (scan_complete r 0 0 content i ltac:(lia) Hmatch) as (m & Hm & Hpos).
  exists m. split; [exact Hm|]. cbn in Hpos. exact Hpos.
Qed.

End Matches.

Lemma finditer_leftmost_witness :
  ∃ m, m ∈ @finditer basic_latin pattern three_records
       ∧ (start m = 81 ∨ (start m < 81 < stop m))%nat.
Proof.
  apply (@finditer_leftmost basic_latin pattern three_records 81).
  - vm_compute. lia.
  - vm_compute. eexists. reflexivity.
Defined.

Section Anatomy.
Context `{Unicode}.

(** ** The groups of a match *)

Lemma exec_gsound {A} r s g (k : text -> groups -> option A) a :
  exec r s g k = Some a ->
  ∃ w s' g', s = w ++ s' ∧ glang r w g g' ∧ k s' g' = Some a.
Proof.
  revert A s g k a.
  induction r as [|c|cs|r1 IH1 r2 IH2|n r IH|lo cs|lo cs];
    intros A s g k a; cbn [exec glang].
  - intros Hk. by exists [], s, g.
  - destruct s as [|x s]; [done|].
    destruct (N.eqb_spec x c) as [->|]; [|done].
    intros Hk. by exists [c], s, g.
  - destruct s as [|x s]; [done|].
    destruct (mem cs x) eqn:Hx; [|done].
    intros Hk. exists [x], s, g. split_and!; [done | by exists x | done | done].
  - intros Hexec.
    destruct (IH1 _ _ _ _ _ Hexec) as (w1 & s1 & g1 & -> & Hw1 & Hexec2).
    destruct (IH2 _ _ _ _ _ Hexec2) as (w2 & s2 & g2 & -> & Hw2 & Hk).
    exists (w1 ++ w2), s2, g2.
    split_and!; [by rewrite (assoc_L (++)) | by exists w1, w2, g1 | done].
  - intros Hexec.
    destruct (IH _ _ _ _ _ Hexec) as (w & s' & g' & -> & Hw & Hk).
    eexists w, s', _. split_and!; [done | | exact Hk].
    exists g'. split; [done|].
    by rewrite length_app, Nat.add_sub, take_app_length.
  - intros Hexec.
    destruct (max_repeat_sound _ _ _ _ _ Hexec) as (w & s' & -> & Hlo & Hw & Hk).
    by exists w, s', g.
  - intros Hexec.
    destruct (min_repeat_sound _ _ _ _ _ Hexec) as (w & s' & -> & Hlo & Hw & Hk).
    by exists w, s', g.
Qed.

Lemma exec_cat_gsound {A} rs1 rs2 s g (k : text -> groups -> option A) a :
  exec (cat (rs1 ++ rs2)) s g k = Some a ->
  ∃ w s' g', s = w ++ s' ∧ glang (cat rs1) w g g'
             ∧ exec (cat rs2) s' g' k = Some a.
Proof.
  revert s g. induction rs1 as [|r rs1 IH]; intros s g.
  - intros Hexec. by exists [], s, g.
  - cbn [app cat foldr exec]. intros Hexec.
    destruct (exec_gsound _ _ _ _ _ Hexec) as (w1 & s1 & g1 & -> & Hw1 & Hrest).
    destruct (IH _ _ Hrest) as (w2 & s2 & g2 & -> & Hw2 & Hk).
    exists (w1 ++ w2), s2, g2.
    split_and!; [by rewrite (assoc_L (++)) | by exists w1, w2, g1 | done].
Qed.

Lemma glang_lang r w g g' : glang r w g g' -> lang r w.
Proof.
  revert w g g'.
  induction r as [|c|cs|r1 IH1 r2 IH2|n r IH|lo cs|lo cs];
    intros w g g'; cbn [glang lang].
  - by intros [-> _].
  - by intros [-> _].
  - by intros [? _].
  - intros (w1 & w2 & g1 & -> & Hw1 & Hw2). exists w1, w2.
    split_and!; [done | by eapply IH1 | by eapply IH2].
  - intros (g1 & Hw & _). by eapply IH.
  - by intros [? _].
  - by intros [? _].
Qed.

Lemma glang_chars l w g g' : glang (cat (Chr <$> l)) w g g' ↔ w = l ∧ g' = g.
Proof.
  revert w. induction l as [|c l IH]; intros w;
    cbn [fmap list_fmap cat foldr glang].
  - done.
  - split.
    + intros (w1 & w2 & g1 & -> & [-> ->] & Hw2). apply IH in Hw2 as [-> ->].
      done.
    + intros [-> ->]. exists [c], l, g. split_and!; [done | done | done |].
      by apply IH.
Qed.

Lemma glang_lit str w g g' : glang (lit str) w g g' ↔ w = txt str ∧ g' = g.
Proof. apply glang_chars. Qed.

(** ** The lazy gap *)

(** The lazy repetition stops at the first place where the rest of the
    pattern matches. *)
Lemma min_repeat_first {A} p (k : text -> option A) s a :
  min_repeat p k 0 s = Some a ->
  ∃ w s', s = w ++ s' ∧ k s' = Some a
          ∧ ∀ j, (j < length w)%nat -> k (drop j s) = None.
Proof.
  induction s as [|c s IH]; cbn [min_repeat].
  - destruct (k []) as [a'|] eqn:Hk; [|done]. intros [= ->].
    exists [], []. split_and!; [done | done |]. cbn. lia.
  - destruct (k (c :: s)) as [a'|] eqn:Hk.
    + intros [= ->]. exists [], (c :: s). split_and!; [done | done |].
      cbn. lia.
    + destruct (p c); [|done]. cbn [pred]. intros Hmore.
      destruct (IH Hmore) as (w & s' & -> & Hk' & Hfirst).
      exists (c :: w), s'. split_and!; [done | done |].
      intros [|j] Hj; [done|]. cbn in Hj |- *. apply Hfirst. lia.
Qed.

(** ** The anatomy of a match of the pattern *)

Lemma space_set c : mem (In [Space]) c = true ↔ isspace c = true.
Proof. cbn. by rewrite orb_false_r. Qed.

Lemma digit_set c : mem (In [Digit]) c = true ↔ is_Some (decimal c).
Proof. cbn. rewrite orb_false_r. apply bool_decide_eq_true. Qed.

Lemma not_quote_set c : mem (NotIn [Literal quote]) c = true ↔ c ≠ quote.
Proof.
  cbn. rewrite orb_false_r, negb_true_iff. apply N.eqb_neq.
Qed.

Lemma quoted_value w :
  (1 ≤ length w)%nat -> Forall (λ c, mem (NotIn [Literal quote]) c = true) w ->
  w ≠ [] ∧ quote ∉ w.
Proof.
  intros Hlen Hw. split; [destruct w; [cbn in Hlen; lia | done]|].
  intros Hin. rewrite Forall_forall in Hw.
  by apply (proj1 (not_quote_set _) (Hw _ Hin)).
Qed.

Lemma glang_tier_name block g g' :
  glang (cat tier_name) block g g' ->
  ∃ ws1 digits ws2 ws3 nm,
    block = txt "tier:" ++ ws1 ++ digits ++ txt "," ++ ws2 ++ txt "name:"
            ++ ws3 ++ [quote] ++ nm ++ [quote]
    ∧ g' = <[2%nat := nm]> (<[1%nat := digits]> g)
    ∧ Forall (λ c, isspace c = true) (ws1 ++ ws2 ++ ws3)
    ∧ digits ≠ [] ∧ Forall (λ c, is_Some (decimal c)) digits
    ∧ nm ≠ [] ∧ quote ∉ nm.
Proof.
  unfold tier_name.
  intros (w1 & ? & g1 & -> & [-> ->]%glang_lit
          & ws1 & ? & ? & -> & [[_ Hws1] ->]
          & w3 & ? & g3 & -> & (? & [[Hlen3 Hw3] ->] & ->)
          & w4 & ? & ? & -> & [-> ->]%glang_lit
          & ws2 & ? & ? & -> & [[_ Hws2] ->]
          & w6 & ? & ? & -> & [-> ->]%glang_lit
          & ws3 & ? & ? & -> & [[_ Hws3] ->]
          & w8 & ? & ? & -> & [-> ->]
          & nm & ? & g9 & -> & (? & [[Hlen9 Hnm] ->] & ->)
          & w10 & ? & ? & -> & [-> ->] & [-> ->]).
  exists ws1, w3, ws2, ws3, nm.
  destruct (quoted_value nm Hlen9 Hnm) as [Hne Hq].
  split_and!; [by rewrite app_nil_r | done | |
               destruct w3; [cbn in Hlen3; lia | done] | | done | done].
  - rewrite !Forall_app. split_and!;
      (eapply Forall_impl; [eassumption|]); intros c; apply space_set.
  - eapply Forall_impl; [exact Hw3|]. intros c. apply digit_set.
Qed.

Lemma glang_rarity_field field g g' :
  glang (cat rarity_field) field g g' ->
  ∃ ws value,
    field = txt "rarity:" ++ ws ++ [quote] ++ value ++ [quote]
    ∧ g' = <[3%nat := value]> g
    ∧ Forall (λ c, isspace c = true) ws
    ∧ value ≠ [] ∧ quote ∉ value.
Proof.
  unfold rarity_field.
  intros (w1 & ? & g1 & -> & [-> ->]%glang_lit
          & ws & ? & ? & -> & [[_ Hws] ->]
          & w3 & ? & ? & -> & [-> ->]
          & value & ? & g4 & -> & (? & [[Hlen Hvalue] ->] & ->)
          & w5 & ? & ? & -> & [-> ->] & [-> ->]).
  exists ws, value.
  destruct (quoted_value value Hlen Hvalue) as [Hne Hq].
  split_and!; [by rewrite app_nil_r | done | | done | done].
  eapply Forall_impl; [exact Hws|]. intros c. apply space_set.
Qed.

Lemma match_anatomy s len g :
  match_ pattern s = Some (len, g) ->
  ∃ block gap field rest g1,
    s = block ++ gap ++ field ++ rest
    ∧ len = length (block ++ gap ++ field)
    ∧ glang (cat tier_name) block ∅ g1
    ∧ glang (cat rarity_field) field g1 g
    ∧ ∀ j, (j < length gap)%nat ->
        match_ (cat rarity_field) (drop j (gap ++ field ++ rest)) = None.
Proof.
  unfold match_ at 1. rewrite pattern_parts. intros Hexec.
  apply exec_cat_gsound in Hexec as (block & s1 & g1 & -> & Hblock & Hexec).
  cbn [app cat foldr exec] in Hexec.
  apply min_repeat_first in Hexec as (gap & s2 & -> & Hexec & Hfirst).
  apply exec_gsound in Hexec as (field & rest & g2 & -> & Hfield & [= <- <-]).
  exists block, gap, field, rest, g1.
  split_and!; [done | | done | done |].
  - rewrite !length_app. lia.
  - intros j Hj. specialize (Hfirst j Hj).
    destruct (match_ (cat rarity_field) (drop j (gap ++ field ++ rest)))
      as [a|] eqn:Hm; [|done].
    exfalso. apply eq_None_not_Some in Hfirst. apply Hfirst. cbn beta.
    unfold match_ in Hm.
    eapply exec_accepts; cycle 1; [exact (mk_is_Some _ _ Hm) | done].
Qed.

End Anatomy.

Section Entries.
Context `{Unicode}.

Lemma finditer_anatomy content m :
  m ∈ finditer pattern content ->
  ∃ ws1 ws2 ws3 gap ws4 rest,
    let block := txt "tier:" ++ ws1 ++ group m 1 ++ txt "," ++ ws2
                 ++ txt "name:" ++ ws3 ++ [quote] ++ group m 2 ++ [quote] in
    let field := txt "rarity:" ++ ws4 ++ [quote] ++ group m 3 ++ [quote] in
    drop (start m) content = block ++ gap ++ field ++ rest
    ∧ (stop m - start m)%nat = length (block ++ gap ++ field)
    ∧ lang (cat tier_name) block
    ∧ Forall (λ c, isspace c = true) (ws1 ++ ws2 ++ ws3 ++ ws4)
    ∧ group m 1 ≠ [] ∧ Forall (λ c, is_Some (decimal c)) (group m 1)
    ∧ group m 2 ≠ [] ∧ (quote ∉ group m 2)
    ∧ group m 3 ≠ [] ∧ (quote ∉ group m 3)
    ∧ ∀ j, (j < length gap)%nat ->
        match_ (cat rarity_field) (drop j (gap ++ field ++ rest)) = None.
Proof.
  intros Hm%finditer_match.
  apply match_anatomy in Hm
    as (block & gap & field & rest & g1 & Hs & Hlen & Hblock & Hfield & Hgap).
  pose proof (glang_lang _ _ _ _ Hblock) as Hlang.
  apply glang_tier_name in Hblock
    as (ws1 & digits & ws2 & ws3 & nm & -> & -> & Hws & Hd & Hds & Hnm & Hq).
  apply glang_rarity_field in Hfield
    as (ws4 & value & -> & Hg & Hws4 & Hvalue & Hqv).
  assert (group m 1 = digits) as ->.
  { unfold group. rewrite Hg. unfold groups.
    rewrite lookup_insert_ne, lookup_insert_ne, lookup_insert_eq by done. done. }
  assert (group m 2 = nm) as ->.
  { unfold group. rewrite Hg. unfold groups.
    by rewrite lookup_insert_ne, lookup_insert_eq by done. }
  assert (group m 3 = value) as ->.
  { unfold group. rewrite Hg. unfold groups. by rewrite lookup_insert_eq. }
  exists ws1, ws2, ws3, gap, ws4, rest. cbv zeta.
  split_and!; try done.
  rewrite !Forall_app in Hws. rewrite !Forall_app.
  destruct Hws as (? & ? & ?). split_and!; assumption.
Qed.

(** X3. What a match of the script's pattern covers: [tier:], white space,
    the digits of group 1, a comma, white space, [name:], white space, the
    name of group 2 between quotes, anything, [rarity:], white space, and
    the rarity of group 3 between quotes.  The three groups are not empty,
    the first is made of digits, the other two have no quote in them. *)
Theorem match_shape content :
  Forall (λ m, ∃ ws1 ws2 ws3 gap ws4,
      matched content m =
        txt "tier:" ++ ws1 ++ group m 1 ++ txt "," ++ ws2 ++ txt "name:"
        ++ ws3 ++ [quote] ++ group m 2 ++ [quote] ++ gap
        ++ txt "rarity:" ++ ws4 ++ [quote] ++ group m 3 ++ [quote]
      ∧ Forall (λ c, isspace c = true) (ws1 ++ ws2 ++ ws3 ++ ws4)
      ∧ group m 1 ≠ [] ∧ Forall (λ c, is_Some (decimal c)) (group m 1)
      ∧ group m 2 ≠ [] ∧ (quote ∉ group m 2)
      ∧ group m 3 ≠ [] ∧ (quote ∉ group m 3))
    (finditer pattern content).
Proof.
  apply Forall_forall. intros m Hm.
  destruct (finditer_anatomy _ _ Hm)
    as (ws1 & ws2 & ws3 & gap & ws4 & rest & Hs & Hlen & _ & Hws
        & ? & ? & ? & ? & ? & ? & _).
  assert (group m 1 ≠ [] ∧ Forall (λ c, is_Some (decimal c)) (group m 1)
          ∧ group m 2 ≠ [] ∧ (quote ∉ group m 2)
          ∧ group m 3 ≠ [] ∧ (quote ∉ group m 3)) as Hrest by done.
  exists ws1, ws2, ws3, gap, ws4. split; [|split; [exact Hws | exact Hrest]].
  unfold matched. rewrite Hs, Hlen.
  rewrite !(assoc_L (++)). rewrite take_app_length.
  by rewrite <- !(assoc_L (++)).
Qed.

(** X5. The rarity of a match is the nearest one: a match is a block with
    the tier and the name, a gap, and a rarity field with the rarity of the
    match, and nowhere in the gap does a rarity field begin.  So a block
    that has no rarity of its own takes the rarity of a later block, and
    that block gives no entry. *)
Theorem rarity_is_nearest_field content :
  Forall (λ m, ∃ block gap ws,
      let field := txt "rarity:" ++ ws ++ [quote] ++ group m 3 ++ [quote] in
      matched content m = block ++ gap ++ field
      ∧ lang (cat tier_name) block
      ∧ Forall (λ c, isspace c = true) ws
      ∧ Forall (λ j,
          match_ (cat rarity_field) (drop (start m + length block + j) content)
          = None) (seq 0 (length gap)))
    (finditer pattern content).
Proof.
  apply Forall_forall. intros m Hm.
  destruct (finditer_anatomy _ _ Hm)
    as (ws1 & ws2 & ws3 & gap & ws4 & rest & Hs & Hlen & Hblock & Hws
        & _ & _ & _ & _ & _ & _ & Hgap).
  cbv zeta in Hs, Hlen, Hblock, Hgap.
  eexists _, gap, ws4. cbv zeta. split_and!; [| exact Hblock | |].
  - unfold matched. rewrite Hs, Hlen.
    rewrite !(assoc_L (++)). rewrite take_app_length.
    by rewrite <- !(assoc_L (++)).
  - rewrite !Forall_app in Hws. by destruct Hws as (? & ? & ? & ?).
  - apply Forall_forall. intros j Hj%elem_of_seq.
    rewrite <- !drop_drop, Hs, drop_app_length. apply Hgap. lia.
Qed.

(** The first block of [crossed_records] has no rarity of its own: it
    takes the rarity of the second, which gives no entry. *)
Example crossed_records_parse :
  @parse_content basic_latin crossed_records
  = [ {| tier := 1; name := txt "A"; rarity := txt "Rare" |} ].
Proof. vm_compute. reflexivity. Qed.

Lemma int_nonneg s :
  (∀ c d, decimal c = Some d -> 0 <= d) -> 0 <= int s.
Proof.
  intros Hdec. unfold int.
  assert (∀ acc, 0 <= acc ->
            0 <= fold_left (λ acc c, 10 * acc + default 0 (decimal c)) s acc)
    as Hfold; [|by apply Hfold].
  induction s as [|c s IH]; intros acc Hacc; cbn [fold_left]; [done|].
  apply IH. destruct (decimal c) as [d|] eqn:Hd; cbn.
  - specialize (Hdec _ _ Hd). lia.
  - lia.
Qed.

(** X4. Every entry of the parser has a name and a rarity that are not
    empty and have no quote in them; its tier is not negative (no digit of
    the interpreter's tables has a negative value). *)
Theorem entries_well_formed content :
  Forall (λ e, name e ≠ [] ∧ (quote ∉ name e)
               ∧ rarity e ≠ [] ∧ (quote ∉ rarity e))
    (parse_content content)
  ∧ ((∀ c d, decimal c = Some d -> 0 <= d) ->
     Forall (λ e, 0 <= tier e) (parse_content content)).
Proof.
  unfold parse_content. cbv zeta. rewrite !sorted_perm. split.
  - apply Forall_fmap, Forall_forall. intros m Hm.
    destruct (finditer_anatomy _ _ Hm)
      as (? & ? & ? & ? & ? & ? & _ & _ & _ & _ & _ & _ & ? & ? & ? & ? & _).
    cbn. done.
  - intros Hdec. apply Forall_fmap, Forall_forall. intros m _. cbn.
    by apply int_nonneg.
Qed.

End Entries.

Lemma entries_well_formed_witness :
  Forall (λ e, 0 <= tier e) (@parse_content basic_latin three_records).
Proof.
  apply (proj2 (@entries_well_formed basic_latin three_records)).
  intros c d. cbn.
  destruct ((48 <=? c)%N && (c <=? 57)%N) eqn:Hc; [|done].
  intros [= <-]. apply andb_true_iff in Hc as [Hlo%N.leb_le _]. lia.
Defined.

(* ===================================================================== *)
(** * More about the renderer *)
(* ===================================================================== *)

(** ** One pixel *)







(** ** Every pixel of the icon *)

Lemma layer_table :
  Forall (λ key,
    Forall (λ s, layers_match (palette key) s (icon_bitmap key s)) residues)
    known_rarities.
Proof. apply (bool_decide_unpack _). vm_compute. exact I. Qed.

Lemma layer_pixel_residue base accent seed xy :
  layer_pixel base accent (seed mod 6) xy = layer_pixel base accent seed xy.
Proof.
  unfold layer_pixel.
  rewrite (Z.mod_mod_divide seed 6 2) by (by exists 3).
  by rewrite (Z.mod_mod_divide seed 6 3) by (by exists 2).
Qed.

Lemma icon_bitmap_layers rarity seed x y :
  (x < GRID)%nat -> (y < GRID)%nat ->
  getpixel (icon_bitmap rarity seed) (x, y)
  = Some (layer_pixel (palette rarity).1 (palette rarity).2 seed (x, y)).
Proof.
  intros Hx Hy.
  destruct (icon_bitmap_canon rarity) as (key & Hkey & -> & ->).
  pose proof layer_table as Htable.
  rewrite Forall_forall in Htable. specialize (Htable key Hkey).
  rewrite Forall_forall in Htable. specialize (Htable _ (residue_elem seed)).
  unfold layers_match in Htable. rewrite Forall_forall in Htable.
  rewrite (Htable _ (grid_pixels_elem x y Hx Hy)).
  by rewrite layer_pixel_residue.
Qed.

(** X8. The icon, pixel by pixel.  Each pixel of the 16x16 bitmap has the
    colour of the last stroke of [draw_icon] that covers it: in that order
    the stripe (when 3 divides the seed), the pickaxe head, the handle, the
    mouth, the eyes, the face, the brim, the helmet, the frame; a pixel
    that no stroke covers is transparent.  The 128x128 icon has at
    [(X, Y)] the colour of the bitmap at [(X / 8, Y / 8)]. *)
Theorem icon_is_its_layers rarity seed :
  let '(base, accent) := palette rarity in
  Forall (λ xy, getpixel (icon_bitmap rarity seed) xy
                = Some (layer_pixel base accent seed xy)) grid_pixels
  ∧ Forall (λ X, Forall (λ Y,
        getpixel (draw_icon rarity seed) (X, Y)
        = Some (layer_pixel base accent seed (X / SCALE, Y / SCALE)%nat))
      (seq 0 128)) (seq 0 128).
Proof.
  destruct (palette rarity) as [base accent] eqn:Hpal.
  assert (∀ x y, (x < GRID)%nat -> (y < GRID)%nat ->
            getpixel (icon_bitmap rarity seed) (x, y)
            = Some (layer_pixel base accent seed (x, y))) as Hpx.
  { intros x y Hx Hy. rewrite icon_bitmap_layers by done. by rewrite Hpal. }
  split.
  - apply Forall_forall. intros [x y] Hin. apply Hpx.
    + unfold grid_pixels in Hin.
      apply list_elem_of_bind in Hin as (y' & Hin & Hy%elem_of_seq).
      apply list_elem_of_bind in Hin as (x' & Hin & Hx%elem_of_seq).
      apply list_elem_of_singleton in Hin as [= -> ->]. lia.
    + unfold grid_pixels in Hin.
      apply list_elem_of_bind in Hin as (y' & Hin & Hy%elem_of_seq).
      apply list_elem_of_bind in Hin as (x' & Hin & Hx%elem_of_seq).
      apply list_elem_of_singleton in Hin as [= -> ->]. lia.
  - apply Forall_forall. intros X HX%elem_of_seq.
    apply Forall_forall. intros Y HY%elem_of_seq.
    rewrite draw_icon_pixel
      by (change GRID with 16%nat; change SCALE with 8%nat; lia).
    apply Hpx; apply Nat.Div0.div_lt_upper_bound;
      change GRID with 16%nat; change SCALE with 8%nat; lia.
Qed.

(** ** How many icons there are *)

Lemma parity_cases s : s mod 2 = 0 ∨ s mod 2 = 1.
Proof. pose proof (Z.mod_pos_bound s 2 ltac:(lia)). lia. Qed.

Lemma skin_pixel_parity rarity s s' :
  getpixel (icon_bitmap rarity s) (4, 8)%nat
  = getpixel (icon_bitmap rarity s') (4, 8)%nat ->
  s mod 2 = s' mod 2.
Proof.
  assert (shows_skin (4, 8)%nat) as Hskin
    by (apply (bool_decide_unpack _); vm_compute; exact I).
  assert (tone_even ≠ tone_odd) as Htones by (by vm_compute).
  assert (4 < GRID)%nat as H4 by (change GRID with 16%nat; lia).
  assert (8 < GRID)%nat as H8 by (change GRID with 16%nat; lia).
  intros Heq.
  destruct (parity_cases s) as [Hs|Hs], (parity_cases s') as [Hs'|Hs'];
    [congruence | | | congruence]; exfalso.
  - destruct (skin_bitmap rarity s s' 4 8 Hs Hs' H4 H8) as [Hface _].
    destruct (Hface Hskin) as [Ha Hb]. rewrite Ha, Hb in Heq. congruence.
  - destruct (skin_bitmap rarity s' s 4 8 Hs' Hs H4 H8) as [Hface _].
    destruct (Hface Hskin) as [Ha Hb]. rewrite Ha, Hb in Heq. congruence.
Qed.

(** X9. There are four icons of a rarity, not six: two seeds give the same
    icon exactly when they have the same parity and 3 divides both or
    neither.  (So the seeds 1 and 5 give one icon, and 2 and 4.) *)
Theorem icon_variants rarity s s' :
  draw_icon rarity s = draw_icon rarity s'
  ↔ s mod 2 = s' mod 2 ∧ (s mod 3 = 0 ↔ s' mod 3 = 0).
Proof.
  split.
  - intros Heq. split.
    + apply (skin_pixel_parity rarity).
      rewrite <- !(draw_icon_pixel _ _ 32 64) by (vm_compute; lia).
      by rewrite Heq.
    + rewrite <- !(has_stripe_icon rarity). by rewrite Heq.
  - intros [H2 H3].
    assert ((s mod 3 =? 0) = (s' mod 3 =? 0)) as Hb.
    { destruct (Z.eqb_spec (s mod 3) 0), (Z.eqb_spec (s' mod 3) 0);
        [done | | | done]; exfalso; tauto. }
    unfold draw_icon, icon_bitmap. by rewrite H2, Hb.
Qed.

Lemma icon_variants_witness :
  draw_icon (txt "Rare") 1 = draw_icon (txt "Rare") 5
  ∧ draw_icon (txt "Rare") 1 ≠ draw_icon (txt "Rare") 3.
Proof.
  split.
  - apply (proj2 (icon_variants (txt "Rare") 1 5)). split; [reflexivity|].
    split; discriminate.
  - intros Heq. apply (proj1 (icon_variants (txt "Rare") 1 3)) in Heq.
    destruct Heq as [_ [_ H3]]. discriminate (H3 eq_refl).
Defined.

Lemma helmet_pixel base accent seed :
  layer_pixel base accent seed (3, 2)%nat = ink base.
Proof. unfold layer_pixel. by destruct (seed mod 3 =? 0). Qed.

Lemma base_colors_differ :
  Forall (λ r1, Forall (λ r2,
      ink (palette r1).1 = ink (palette r2).1 -> r1 = r2) known_rarities)
    known_rarities.
Proof. apply (bool_decide_unpack _). vm_compute. exact I. Qed.

(** X10. The six known rarities look different: whatever the seeds, the
    icons of two of them differ (in the colour of the helmet). *)
Theorem rarities_look_different r1 r2 s1 s2 :
  r1 ∈ known_rarities -> r2 ∈ known_rarities -> r1 ≠ r2 ->
  draw_icon r1 s1 ≠ draw_icon r2 s2.
Proof.
  intros Hr1 Hr2 Hne Heq. apply Hne.
  pose proof base_colors_differ as Htable.
  rewrite Forall_forall in Htable. specialize (Htable r1 Hr1).
  rewrite Forall_forall in Htable. apply (Htable r2 Hr2).
  assert (getpixel (draw_icon r1 s1) (24, 16)%nat
          = getpixel (draw_icon r2 s2) (24, 16)%nat) as Hpx by (by rewrite Heq).
  rewrite !draw_icon_pixel in Hpx by (vm_compute; lia).
  change (24 / SCALE, 16 / SCALE)%nat with (3, 2)%nat in Hpx.
  rewrite !icon_bitmap_layers in Hpx by (vm_compute; lia).
  rewrite !helmet_pixel in Hpx. by injection Hpx.
Qed.

Lemma rarities_look_different_witness :
  draw_icon (txt "Epic") 4 ≠ draw_icon (txt "Mythic") 4.
Proof.
  apply (rarities_look_different (txt "Epic") (txt "Mythic") 4 4).
  - apply (bool_decide_unpack _). vm_compute. exact I.
  - apply (bool_decide_unpack _). vm_compute. exact I.
  - discriminate.
Defined.

(* ===================================================================== *)
(** * More about a run *)
(* ===================================================================== *)

(** ** The names of the files *)

Lemma txt_inj s1 s2 : txt s1 = txt s2 -> s1 = s2.
Proof.
  unfold txt. intros Heq.
  assert (list_ascii_of_string s1 = list_ascii_of_string s2) as Hl.
  { revert Heq. generalize (list_ascii_of_string s1) (list_ascii_of_string s2).
    induction l as [|a l IH]; intros [|b l']; cbn; try done.
    intros [= Hab Hrest]. f_equal; [|by apply IH].
    by rewrite <- (ascii_N_embedding a), <- (ascii_N_embedding b), Hab. }
  by rewrite <- (string_of_list_ascii_of_string s1),
    <- (string_of_list_ascii_of_string s2), Hl.
Qed.

Lemma str_inj n1 n2 : str n1 = str n2 -> n1 = n2.
Proof. unfold str. intros Heq%txt_inj. by apply (inj pretty). Qed.

Section Paths.
Context `{Install}.

Lemma icon_path_inj t1 t2 : icon_path t1 = icon_path t2 -> t1 = t2.
Proof.
  unfold icon_path, joinpath. intros Heq%app_inv_head.
  injection Heq as Heq. apply app_inv_tail in Heq.
  by apply str_inj.
Qed.

(** X17. The files of a run do not collide: the icons of two tiers are two
    files, and no icon is the manifest or the data file, which are two
    files too. *)
Theorem output_paths_distinct :
  (∀ t1 t2, icon_path t1 = icon_path t2 -> t1 = t2)
  ∧ (∀ t, icon_path t ≠ manifest_path)
  ∧ (∀ t, icon_path t ≠ DATABASE_PATH)
  ∧ manifest_path ≠ DATABASE_PATH.
Proof.
  split_and!.
  - apply icon_path_inj.
  - intros t. unfold icon_path, manifest_path, joinpath.
    intros Heq%app_inv_head. apply (f_equal (λ l, l !! 0%nat)) in Heq.
    discriminate Heq.
  - apply input_is_no_output.
  - apply input_is_no_output.
Qed.

End Paths.

Lemma output_paths_distinct_witness :
  @icon_path repo 12 ≠ @icon_path repo 21.
Proof.
  intros Heq. apply (proj1 (@output_paths_distinct repo)) in Heq.
  discriminate Heq.
Defined.

Section MoreRun.
Context `{Unicode, Install}.

(** ** When the first calls are not refused *)

Lemma quiet_clear n w : quiet w -> clear n w.
Proof. unfold quiet, clear. apply Forall_take. Qed.

Lemma clear_spend n w : clear (S n) w -> clear n (spend 1 w).
Proof.
  unfold clear, spend. cbn [faults].
  destruct (faults w) as [|b rest]; cbn; [by rewrite take_nil|].
  rewrite drop_0. by intros [_ ?]%Forall_cons.
Qed.


Lemma syscall_clear w : clear 1 w -> syscall w = (Ok (), spend 1 w).
Proof.
  unfold clear, syscall, spend. destruct w as [fs out [|refused rest]]; cbn.
  - done.
  - rewrite take_0, drop_0. by intros [-> _]%Forall_cons.
Qed.

Lemma syscall_refused w :
  faults w !! 0%nat = Some true -> syscall w = (Raise OSError, spend 1 w).
Proof.
  unfold syscall, spend. destruct (faults w) as [|refused rest]; cbn; [done|].
  rewrite drop_0. by intros [= ->].
Qed.



Lemma foldl_icon_written miners w :
  foldl icon_written w miners
  = {| files := icons_files miners (files w);
       stdout := stdout w ++ progress miners;
       faults := drop (length miners) (faults w) |}.
Proof.
  revert w. induction miners as [|m miners IH]; intros w.
  - destruct w. cbn. by rewrite app_nil_r, drop_0.
  - cbn [foldl]. rewrite IH. unfold icon_written.
    cbn [files stdout faults length]. unfold icons_files, progress.
    cbn [foldl fmap list_fmap]. rewrite drop_drop, <- (assoc_L (++)).
    done.
Qed.





Lemma main_undisturbed w content :
  files w !! DATABASE_PATH = Some (TextFile content) ->
  quiet w ->
  let miners := parse_content content in
  main w =
    (Ok (),
     {| files :=
          <[manifest_path :=
              TextFile (json_dumps
                [ (txt "size", JInt 128);
                  (txt "count",
                   JInt (Z.of_nat (length (finditer pattern content))));
                  (txt "path", JStr (txt "assets/ui/miners")) ])]>
            (icons_files miners (files w));
        stdout := stdout w ++ progress miners;
        faults := drop (3 + length miners) (faults w) |}).
Proof.
  intros Hfile Hq miners.
  rewrite (main_quiet _ _ Hq Hfile).
  rewrite generate_quiet by by apply quiet_spend.
  cbv zeta. fold miners. rewrite foldl_icon_written.
  cbn [files stdout faults spend]. unfold manifest_of.
  rewrite !drop_drop.
  replace (length miners) with (length (finditer pattern content))
    by (unfold miners, parse_content; by rewrite sorted_length, length_fmap).
  do 3 f_equal. lia.
Qed.



End MoreRun.


Section Overwrite.
Context `{Unicode, Install}.

(** ** Entries of one tier *)

Lemma icons_files_snoc miners miner fs :
  icons_files (miners ++ [miner]) fs
  = <[icon_path miner.(tier) :=
        ImageFile (draw_icon miner.(rarity) miner.(tier))]>
      (icons_files miners fs).
Proof. unfold icons_files. by rewrite foldl_app. Qed.


Lemma icons_files_other miners fs path :
  (∀ t, path ≠ icon_path t) -> icons_files miners fs !! path = fs !! path.
Proof.
  intros Hpath. induction miners as [|m miners IH] using rev_ind; [done|].
  rewrite icons_files_snoc, lookup_insert_ne; [done|].
  intros Heq. by apply (Hpath (tier m)).
Qed.


End Overwrite.


Section Failure.
Context `{Unicode, Install}.

(** ** The first refusal *)



Lemma clear_spend_n n k w : clear (n + k) w -> clear k (spend n w).
Proof.
  revert w. induction n as [|n IH]; intros w Hc.
  - unfold spend. destruct w. cbn. by rewrite drop_0.
  - replace (spend (S n) w) with (spend n (spend 1 w))
      by (by rewrite spend_spend).
    apply IH. by apply clear_spend.
Qed.



(** X14. Without a data file that can be read as text the run does
    nothing: it raises ([OSError] when the read is refused or the file is
    missing, [UnicodeDecodeError] when the file is an image) after its
    first system call, makes no directory, writes no file and prints
    nothing. *)
Theorem unreadable_data_file w :
  (∀ content, files w !! DATABASE_PATH ≠ Some (TextFile content)) ->
  let e := if decide (faults w !! 0%nat = Some true
                      ∨ files w !! DATABASE_PATH = None)
           then OSError else UnicodeDecodeError in
  parse_miners DATABASE_PATH w = (Raise e, spend 1 w)
  ∧ main w = (Raise e, spend 1 w).
Proof.
  intros Hfile e.
  assert (read_text DATABASE_PATH w = (Raise e, spend 1 w)) as Hread.
  { unfold read_text, e.
    destruct (faults w !! 0%nat) as [[|]|] eqn:Hfault.
    - rewrite decide_True by (by left).
      apply bind_raise. by apply syscall_refused.
    - assert (clear 1 w) as Hclear.
      { unfold clear. destruct (faults w) as [|b rest]; [constructor|].
        cbn in *. rewrite take_0. injection Hfault as ->. by repeat constructor. }
      rewrite (bind_ok _ _ _ _ _ (syscall_clear w Hclear)).
      unfold fetch. cbn [spend files].
      destruct (files w !! DATABASE_PATH) as [[content|img]|] eqn:Hdb.
      + by destruct (Hfile content).
      + rewrite decide_False; [done|]. by intros [|].
      + by rewrite decide_True by (by right).
    - assert (clear 1 w) as Hclear.
      { unfold clear. destruct (faults w) as [|b rest]; [constructor|done]. }
      rewrite (bind_ok _ _ _ _ _ (syscall_clear w Hclear)).
      unfold fetch. cbn [spend files].
      destruct (files w !! DATABASE_PATH) as [[content|img]|] eqn:Hdb.
      + by destruct (Hfile content).
      + rewrite decide_False; [done|]. by intros [|].
      + by rewrite decide_True by (by right). }
  assert (parse_miners DATABASE_PATH w = (Raise e, spend 1 w)) as Hparse
    by (unfold parse_miners; by apply bind_raise).
  split; [exact Hparse|].
  rewrite main_steps. by apply bind_raise.
Qed.

End Failure.


(** No data file at all. *)
Lemma unreadable_data_file_witness :
  @main basic_latin repo {| files := ∅; stdout := []; faults := [] |}
  = (Raise OSError, {| files := ∅; stdout := []; faults := [] |}).
Proof.
  refine (proj2 (@unreadable_data_file basic_latin repo
                   {| files := ∅; stdout := []; faults := [] |} _)).
  intros content. cbn [files]. by rewrite lookup_empty.
Defined.

(** ** What a run leaves alone *)










Section Confined.
Context `{Unicode, Install}.


Lemma keeps_main path :
  (∀ name, path ≠ OUTPUT_DIR </> name) -> keeps path main.
Proof.
  intros Hpath. rewrite main_steps. apply keeps_bind.
  - apply keeps_parse_miners.
  - intros miners. unfold generate, mkdir, write_text.
    apply keeps_bind; [apply keeps_syscall|]. intros _.
    apply keeps_bind.
    + apply keeps_for_io. intros miner. unfold write_icon, save.
      apply keeps_bind; [|intros _; apply keeps_print].
      apply keeps_bind; [apply keeps_syscall|]. intros _.
      apply keeps_store. intros Heq. by eapply Hpath.
    + intros _.
      apply keeps_bind; [apply keeps_syscall|]. intros _.
      apply keeps_store. intros Heq. by eapply Hpath.
Qed.

Lemma database_not_output name : DATABASE_PATH ≠ OUTPUT_DIR </> name.
Proof.
  unfold DATABASE_PATH, OUTPUT_DIR, joinpath.
  rewrite <- !(assoc_L (++)). intros Heq%app_inv_head. discriminate Heq.
Qed.


(** ** A second run *)

Lemma quiet_drop n w fs out :
  quiet w -> quiet {| files := fs; stdout := out; faults := drop n (faults w) |}.
Proof. unfold quiet. cbn [faults]. apply Forall_drop. Qed.

Lemma icons_files_lookup_path miners fs path :
  icons_files miners fs !! path
  = match last (filter (λ m, icon_path (tier m) = path) miners) with
    | Some m => Some (ImageFile (draw_icon (rarity m) (tier m)))
    | None => fs !! path
    end.
Proof.
  induction miners as [|m miners IH] using rev_ind; [done|].
  rewrite icons_files_snoc, filter_app.
  destruct (decide (icon_path (tier m) = path)) as [<-|Hne].
  - rewrite lookup_insert_eq, (filter_cons_True _ m) by done.
    cbn [filter list_filter]. by rewrite last_snoc.
  - rewrite lookup_insert_ne by done.
    rewrite (filter_cons_False _ m) by done.
    cbn [filter list_filter]. by rewrite app_nil_r.
Qed.

Lemma icons_files_twice miners fs content :
  icons_files miners
    (<[manifest_path := content]> (icons_files miners fs))
  = <[manifest_path := content]> (icons_files miners fs).
Proof.
  apply map_eq. intros path. rewrite icons_files_lookup_path.
  destruct (last (filter (λ m, icon_path (tier m) = path) miners))
    as [m|] eqn:Hlast; [|done].
  assert (icon_path (tier m) = path) as <-.
  { apply last_Some_elem_of in Hlast.
    by apply list_elem_of_filter in Hlast as [? _]. }
  rewrite lookup_insert_ne by (symmetry; apply icon_path_manifest).
  by rewrite icons_files_lookup_path, Hlast.
Qed.

(** X16. Running the script again changes no file: after a run that the
    system does not disturb, a second one returns too, leaves every file
    as the first left it, and prints the same lines once more. *)
Theorem second_run_changes_no_file w content w1 :
  files w !! DATABASE_PATH = Some (TextFile content) ->
  quiet w ->
  main w = (Ok (), w1) ->
  ∃ w2, main w1 = (Ok (), w2)
    ∧ files w2 = files w1
    ∧ stdout w2 = stdout w1 ++ progress (parse_content content).
Proof.
  intros Hfile Hq Hmain.
  assert (files w1 !! DATABASE_PATH = Some (TextFile content)) as Hfile1.
  { rewrite (keeps_main DATABASE_PATH database_not_output _ _ _ Hmain).
    exact Hfile. }
  rewrite (main_undisturbed _ _ Hfile Hq) in Hmain. injection Hmain as <-.
  eexists. split.
  - apply main_undisturbed; [exact Hfile1 | by apply quiet_drop].
  - cbn [files stdout]. split; [|done].
    by rewrite icons_files_twice, insert_insert_eq.
Qed.

End Confined.


Lemma second_run_changes_no_file_witness :
  ∃ w1 w2,
    @main basic_latin repo
      (world_with (@DATABASE_PATH repo) two_records []) = (Ok (), w1)
    ∧ @main basic_latin repo w1 = (Ok (), w2)
    ∧ files w2 = files w1.
Proof.
  assert (quiet (world_with (@DATABASE_PATH repo) two_records [])) as Hq
    by constructor.
  pose proof (@main_undisturbed basic_latin repo
                (world_with (@DATABASE_PATH repo) two_records []) two_records
                (lookup_singleton_eq _ _) Hq) as Hmain1.
  destruct (@second_run_changes_no_file basic_latin repo
              (world_with (@DATABASE_PATH repo) two_records []) two_records _
              (lookup_singleton_eq _ _) Hq Hmain1)
    as (w2 & Hmain2 & Hfiles & _).
  eexists _, w2. split; [exact Hmain1|]. split; [exact Hmain2 | exact Hfiles].
Defined.
